(** * Trace latencies over a weighted service graph

    A shallow embedding of [index.js]: the adjacency structure built by
    [parse], the path evaluator [getLatency] and the depth-first enumerator
    [find]/[recurse] driven by a three-way predicate.

    Conventions of the embedding.
    - A JS object is the list of its own properties, in the order
      [Object.entries] reports them.  Properties inherited from
      [Object.prototype] are not part of the model: keys are node names.
    - Latencies are integers ([Z]); a path is a JS array of keys.
    - A predicate is a closure: its captured variables are an explicit state
      that every call receives and returns.  It reads the candidate it is
      handed.
    - [recurse] need not terminate on a cyclic graph, so the embedding takes
      the recursion depth it may use and answers [None] beyond it. *)

From Stdlib Require Import ZArith List String Ascii Bool Lia Sorted.
Import ListNotations.
Open Scope string_scope.
Open Scope list_scope.
Open Scope Z_scope.

(** ** JS values returned by the functions of the program *)

Inductive value : Type :=
| VUndefined
| VNull
| VBool (b : bool)
| VNum (z : Z)
| VStr (s : string).

(** [a === b] on the values above. *)
Definition strict_eq (a b : value) : bool :=
  match a, b with
  | VUndefined, VUndefined => true
  | VNull, VNull => true
  | VBool x, VBool y => Bool.eqb x y
  | VNum x, VNum y => Z.eqb x y
  | VStr x, VStr y => String.eqb x y
  | _, _ => false
  end.

Definition STOP : value := VNum (-1).
Definition CONTINUE : value := VNum 0.
Definition INCLUDE : value := VNum 1.

(** ** Objects *)

Definition key := string.

Definition obj (A : Type) : Type := list (key * A).

(** [o[k]]; [None] stands for [undefined]. *)
Fixpoint get {A : Type} (o : obj A) (k : key) : option A :=
  match o with
  | [] => None
  | (k', v) :: o' => if String.eqb k' k then Some v else get o' k
  end.

Definition keys {A : Type} (o : obj A) : list key := map fst o.

(** An object holds one own property per key. *)
Definition wf_obj {A : Type} (o : obj A) : Prop := NoDup (keys o).

Definition Graph : Type := obj (obj Z).

Definition wf_graph {A : Type} (g : obj (obj A)) : Prop :=
  forall k o, In (k, o) g -> wf_obj o.

(** [graph[k] || {}] *)
Definition neighbors {A : Type} (graph : obj (obj A)) (k : key) : obj A :=
  match get graph k with
  | Some parent => parent
  | None => []
  end.

(** *** Property order and assignment

    [Object.entries] lists the array-index keys first, in ascending numeric
    order, and then the other keys in the order they were created. *)

Definition is_digit (c : ascii) : bool :=
  let n := N_of_ascii c in (48 <=? n)%N && (n <=? 57)%N.

Fixpoint digits_value (s : string) (acc : N) : option N :=
  match s with
  | EmptyString => Some acc
  | String c s' =>
      if is_digit c then digits_value s' (acc * 10 + (N_of_ascii c - 48))%N
      else None
  end.

(** A canonical numeric string below [2^32 - 1]. *)
Definition array_index (k : key) : option N :=
  match k with
  | EmptyString => None
  | String c rest =>
      if Ascii.eqb c "0" && negb (String.eqb rest "") then None
      else match digits_value k 0 with
           | Some n => if (n <? 2 ^ 32 - 1)%N then Some n else None
           | None => None
           end
  end.

Definition has {A : Type} (o : obj A) (k : key) : bool :=
  match get o k with
  | Some _ => true
  | None => false
  end.

(** Assignment to an existing property keeps its place. *)
Fixpoint replace {A : Type} (o : obj A) (k : key) (v : A) : obj A :=
  match o with
  | [] => []
  | (k', v') :: o' =>
      if String.eqb k' k then (k', v) :: o' else (k', v') :: replace o' k v
  end.

(** A new array-index key [k] of index [n] goes before the first key that is
    not a smaller array index. *)
Fixpoint insert_index {A : Type} (o : obj A) (n : N) (k : key) (v : A) : obj A :=
  match o with
  | [] => [(k, v)]
  | (k', v') :: o' =>
      match array_index k' with
      | Some m =>
          if (m <? n)%N then (k', v') :: insert_index o' n k v
          else (k, v) :: o
      | None => (k, v) :: o
      end
  end.

Definition add_property {A : Type} (o : obj A) (k : key) (v : A) : obj A :=
  match array_index k with
  | Some n => insert_index o n k v
  | None => o ++ [(k, v)]
  end.

(** [o[k] = v] *)
Definition set {A : Type} (o : obj A) (k : key) (v : A) : obj A :=
  if has o k then replace o k v else add_property o k v.

(** ** parse

    [parse] is embedded from the text of the file it reads, taken as a
    string of ASCII characters. *)

(** [s.split(',')]: always at least one piece. *)
Fixpoint split (sep : ascii) (s : string) : list string :=
  match s with
  | EmptyString => [EmptyString]
  | String c s' =>
      if Ascii.eqb c sep then EmptyString :: split sep s'
      else match split sep s' with
           | [] => [String c EmptyString]
           | piece :: pieces => String c piece :: pieces
           end
  end.

(** [trace[i]] used as a property name. *)
Definition char_key (trace : string) (i : nat) : key :=
  match String.get i trace with
  | Some c => String c EmptyString
  | None => "undefined"
  end.

(** [trace.substr(from)] *)
Fixpoint substr (from : nat) (trace : string) : string :=
  match from, trace with
  | O, _ => trace
  | S _, EmptyString => EmptyString
  | S from', String _ trace' => substr from' trace'
  end.

Section Parse.

(** The numbers of the host and its unary [+] on strings. *)
Variable W : Type.
Variable to_number : string -> W.

(** One iteration of the loop over the traces. *)
Definition parse_trace (results : obj (obj W)) (trace : string) : obj (obj W) :=
  let start := char_key trace 0 in
  let end_ := char_key trace 1 in
  let latency := to_number (substr 2 trace) in
  let results1 := if has results start then results else set results start [] in
  set results1 start (set (neighbors results1 start) end_ latency).

Definition parse_traces (data : list string) : obj (obj W) :=
  fold_left parse_trace data [].

Definition parse (contents : string) : obj (obj W) :=
  parse_traces (split "," contents).

End Parse.

Arguments parse_trace {W} to_number results trace.
Arguments parse_traces {W} to_number data.
Arguments parse {W} to_number contents.

(** Unary [+] on the strings that are decimal integer literals, possibly
    signed and surrounded by white space, and on the blank string.  For any
    other text the host answers [NaN], a number written with a fraction, an
    exponent, a radix prefix or [Infinity], or an integer too large to be
    exact; the embedding keeps that text. *)
Inductive number : Type :=
| Num (z : Z)
| NonInteger (text : string).

Definition is_space (c : ascii) : bool :=
  let n := N_of_ascii c in
  ((9 <=? n)%N && (n <=? 13)%N) || (n =? 32)%N.

Fixpoint trim_left (s : string) : string :=
  match s with
  | EmptyString => EmptyString
  | String c s' => if is_space c then trim_left s' else s
  end.

Fixpoint trim_right (s : string) : string :=
  match s with
  | EmptyString => EmptyString
  | String c s' =>
      match trim_right s' with
      | EmptyString => if is_space c then EmptyString else String c EmptyString
      | t => String c t
      end
  end.

Definition unsigned_literal (s : string) : option Z :=
  match s with
  | EmptyString => None
  | _ => option_map Z.of_N (digits_value s 0)
  end.

Definition to_number (s : string) : number :=
  let t := trim_right (trim_left s) in
  match t with
  | EmptyString => Num 0
  | String c t' =>
      let signed :=
        if Ascii.eqb c "-" then option_map Z.opp (unsigned_literal t')
        else if Ascii.eqb c "+" then unsigned_literal t'
        else unsigned_literal t in
      match signed with
      | Some z => if Z.abs z <=? 2 ^ 53 then Num z else NonInteger s
      | None => NonInteger s
      end
  end.

(** ** getLatency *)

Definition NO_SUCH_TRACE : value := VStr "NO SUCH TRACE".

(** [path[i]]; an index past the end reads [undefined], which as a property
    name is the string of that name. *)
Definition at_index (path : list key) (i : nat) : key := nth i path "undefined".

(** The [for] loop of [getLatency] from index [i], with [n] iterations left
    before [i] reaches [path.length]. *)
Fixpoint getLatency_loop (graph : Graph) (path : list key) (i n : nat) (result : Z)
  : value :=
  match n with
  | O => VNum result
  | S n' =>
      let start := at_index path (i - 1) in
      let end_ := at_index path i in
      let parent := neighbors graph start in
      match get parent end_ with
      | None => NO_SUCH_TRACE
      | Some latency => getLatency_loop graph path (S i) n' (result + latency)
      end
  end.

Definition getLatency (graph : Graph) (path : list key) : value :=
  getLatency_loop graph path 1 (List.length path - 1) 0.

(** ** find and recurse *)

Record result : Type := mkResult { path : list key; latency : Z }.

Section Traversal.

(** The variables a predicate closes over. *)
Variable St : Type.

Definition predicate_t : Type := St -> result -> key -> key -> value * St.

(** [recurse] once its graph is fixed. *)
Definition recurse_t : Type :=
  key -> list key -> Z -> list result -> predicate_t -> St ->
  option (list result * St).

(** The body of the [for ... of Object.entries(parent)] loop over the
    entries still to visit; [rec] is the recursive call, which the source
    makes on the same graph. *)
Fixpoint recurse_entries
         (rec : recurse_t)
         (startKey : key) (startPath : list key) (startLatency : Z)
         (entries : list (key * Z)) (results : list result)
         (predicate : predicate_t) (st : St)
  : option (list result * St) :=
  match entries with
  | [] => Some (results, st)
  | (endKey, meanLatency) :: rest =>
      let latency := startLatency + meanLatency in
      let path := startPath ++ [endKey] in
      let result := mkResult path latency in
      let (status, st1) := predicate st result startKey endKey in
      if strict_eq status STOP then
        recurse_entries rec startKey startPath startLatency rest results predicate st1
      else
        let results1 :=
          if strict_eq status INCLUDE then results ++ [result] else results in
        match rec endKey path latency results1 predicate st1 with
        | None => None
        | Some (results2, st2) =>
            recurse_entries rec startKey startPath startLatency rest results2
                            predicate st2
        end
  end.

Fixpoint recurse (depth : nat) (graph : Graph) (startKey : key)
         (startPath : list key) (startLatency : Z) (results : list result)
         (predicate : predicate_t) (st : St)
  : option (list result * St) :=
  match depth with
  | O => None
  | S depth' =>
      let parent := neighbors graph startKey in
      recurse_entries (recurse depth' graph) startKey startPath startLatency
                      parent results predicate st
  end.

Definition find (depth : nat) (graph : Graph) (startKey : key)
           (predicate : predicate_t) (st : St)
  : option (list result * St) :=
  recurse depth graph startKey [startKey] 0 [] predicate st.

End Traversal.

Arguments recurse_entries {St} rec startKey startPath startLatency entries results predicate st.
Arguments recurse {St} depth graph startKey startPath startLatency results predicate st.
Arguments find {St} depth graph startKey predicate st.

(** ** The graph of the tests

    [graph] is read from a data file; the first test pins its value down. *)

Definition graph : Graph :=
  [ ("A", [("B", 5); ("D", 5); ("E", 7)]);
    ("B", [("C", 4)]);
    ("C", [("D", 8); ("E", 2)]);
    ("D", [("C", 8); ("E", 6)]);
    ("E", [("B", 3)]) ].

(** Predicate of the test with at most 3 hops from C to C. *)
Definition predicate_max3 : predicate_t unit :=
  fun st r startKey endKey =>
    if (4 <? Z.of_nat (List.length (path r))) then (STOP, st)
    else if String.eqb endKey "C" then (INCLUDE, st)
    else (CONTINUE, st).

(** [min] of the shortest-trace tests: a number or [Infinity]. *)
Inductive bound : Type :=
| Infinity
| Finite (z : Z).

(** [latency >= min] *)
Definition geb_bound (latency : Z) (min : bound) : bool :=
  match min with
  | Infinity => false
  | Finite m => m <=? latency
  end.

(** Predicate of the shortest-trace test from A to C; the state is [min]. *)
Definition predicate_shortest : predicate_t bound :=
  fun min r startKey endKey =>
    if geb_bound (latency r) min then (STOP, min)
    else if String.eqb endKey "C" then (INCLUDE, Finite (latency r))
    else (CONTINUE, min).

(** Predicate of the test with exactly 4 hops from A to C. *)
Definition predicate_exactly4 : predicate_t unit :=
  fun st r startKey endKey =>
    let n := Z.of_nat (List.length (path r)) in
    if (5 <? n) then (STOP, st)
    else if (n =? 5) && String.eqb endKey "C" then (INCLUDE, st)
    else (CONTINUE, st).

(** [path[i] === k]; an index outside the array reads [undefined]. *)
Definition index_is (path : list key) (i : Z) (k : key) : bool :=
  if i <? 0 then false
  else match nth_error path (Z.to_nat i) with
       | Some x => String.eqb x k
       | None => false
       end.

(** Predicate of the shortest-trace test from B to B. *)
Definition predicate_shortest_B : predicate_t bound :=
  fun min r startKey endKey =>
    let n := Z.of_nat (List.length (path r)) in
    if index_is (path r) (n - 4) startKey && index_is (path r) (n - 3) endKey
    then (STOP, min)
    else if geb_bound (latency r) min then (STOP, min)
    else if String.eqb endKey "B" then (INCLUDE, Finite (latency r))
    else (CONTINUE, min).

(** Predicate of the test with latency below 30 from C to C. *)
Definition predicate_below30 : predicate_t unit :=
  fun st r startKey endKey =>
    if (30 <=? latency r) then (STOP, st)
    else if String.eqb endKey "C" then (INCLUDE, st)
    else (CONTINUE, st).

(** The graph that a parsed text denotes when all its latencies are
    integers. *)
Definition integer_weights (o : obj number) : option (obj Z) :=
  fold_right (fun e acc =>
                match snd e, acc with
                | Num z, Some l => Some ((fst e, z) :: l)
                | _, _ => None
                end) (Some []) o.

Definition integer_graph (g : obj (obj number)) : option Graph :=
  fold_right (fun e acc =>
                match integer_weights (snd e), acc with
                | Some o, Some l => Some ((fst e, o) :: l)
                | _, _ => None
                end) (Some []) g.

(** ** Paths and their weights, independently of the evaluator *)

(** The weight of the edge from [a] to [b], if the graph has it. *)
Definition edge_weight (g : Graph) (a b : key) : option Z :=
  get (neighbors g a) b.

Definition is_edge (g : Graph) (e : key * key) : Prop :=
  edge_weight g (fst e) (snd e) <> None.

Definition weight (g : Graph) (e : key * key) : Z :=
  match edge_weight g (fst e) (snd e) with
  | Some w => w
  | None => 0
  end.

(** The pairs [(path[i-1], path[i])]. *)
Fixpoint consecutive (p : list key) : list (key * key) :=
  match p with
  | [] => []
  | a :: rest =>
      match rest with
      | [] => []
      | b :: _ => (a, b) :: consecutive rest
      end
  end.

Definition sum (l : list Z) : Z := fold_right Z.add 0 l.

Definition path_weight (g : Graph) (p : list key) : Z :=
  sum (map (weight g) (consecutive p)).

(** The evaluator read along the list instead of by index. *)
Fixpoint walk (g : Graph) (start : key) (rest : list key) (result : Z) : value :=
  match rest with
  | [] => VNum result
  | end_ :: rest' =>
      match edge_weight g start end_ with
      | None => NO_SUCH_TRACE
      | Some w => walk g end_ rest' (result + w)
      end
  end.

(** What a result of [find] from [start] has to satisfy: its path begins at
    [start], follows edges of the graph, and its latency is their total. *)
Definition produced_from (g : Graph) (start : key) (r : result) : Prop :=
  hd_error (path r) = Some start
  /\ Forall (is_edge g) (consecutive (path r))
  /\ latency r = path_weight g (path r)
  /\ getLatency g (path r) = VNum (latency r).

(** A path that ends at [cur], with the invariants of a produced path. *)
Definition reached (g : Graph) (start cur : key) (p : list key) (w : Z) : Prop :=
  (exists p', p = p' ++ [cur])
  /\ hd_error p = Some start
  /\ Forall (is_edge g) (consecutive p)
  /\ w = path_weight g p.

(** ** The decision contract, as the specification words it

    A decision function answers with one of three decisions; the engine,
    standing at [cur] with path [P] and weight [W], goes through the outgoing
    edges of [cur] in order. *)

Inductive Decision : Type :=
| Stop
| Continue
| Include.

(** The tags of the program. *)
Definition tag (d : Decision) : value :=
  match d with
  | Stop => STOP
  | Continue => CONTINUE
  | Include => INCLUDE
  end.

Section Contract.

Variable St : Type.

Definition decide_t : Type := St -> result -> key -> key -> Decision * St.

Variable decide : decide_t.

(** The predicate that hands the program the tag of each decision. *)
Definition predicate_of : predicate_t St :=
  fun st r cur nxt => let (d, st') := decide st r cur nxt in (tag d, st').

(** [explore g cur P W edges acc st acc' st']: extending [P] along [edges]
    turns the result sequence [acc] into [acc'] and the state of the
    decision function from [st] into [st']. *)
Inductive explore (g : Graph)
  : key -> list key -> Z -> list (key * Z) ->
    list result -> St -> list result -> St -> Prop :=
| explore_done cur P W acc st :
    explore g cur P W [] acc st acc st
| explore_stop cur P W nxt w rest acc st st1 acc' st' :
    decide st (mkResult (P ++ [nxt]) (W + w)) cur nxt = (Stop, st1) ->
    explore g cur P W rest acc st1 acc' st' ->
    explore g cur P W ((nxt, w) :: rest) acc st acc' st'
| explore_include cur P W nxt w rest acc st st1 acc2 st2 acc' st' :
    decide st (mkResult (P ++ [nxt]) (W + w)) cur nxt = (Include, st1) ->
    explore g nxt (P ++ [nxt]) (W + w) (neighbors g nxt)
            (acc ++ [mkResult (P ++ [nxt]) (W + w)]) st1 acc2 st2 ->
    explore g cur P W rest acc2 st2 acc' st' ->
    explore g cur P W ((nxt, w) :: rest) acc st acc' st'
| explore_continue cur P W nxt w rest acc st st1 acc2 st2 acc' st' :
    decide st (mkResult (P ++ [nxt]) (W + w)) cur nxt = (Continue, st1) ->
    explore g nxt (P ++ [nxt]) (W + w) (neighbors g nxt) acc st1 acc2 st2 ->
    explore g cur P W rest acc2 st2 acc' st' ->
    explore g cur P W ((nxt, w) :: rest) acc st acc' st'.

End Contract.

Arguments predicate_of {St} decide st r cur nxt.
Arguments explore {St} decide g cur P W edges acc st acc' st'.

(** A status that is neither of the two tags the program tests for. *)
Definition other_status (status : value) : bool :=
  negb (strict_eq status STOP) && negb (strict_eq status INCLUDE).

(** The predicate that answers [CONTINUE] wherever [predicate] answers such a
    status. *)
Definition other_as_continue {St : Type} (predicate : predicate_t St) : predicate_t St :=
  fun st r cur nxt =>
    let (status, st') := predicate st r cur nxt in
    ((if other_status status then CONTINUE else status), st').

(** A predicate answering statuses the program does not know. *)
Definition predicate_odd : predicate_t unit :=
  fun st r startKey endKey =>
    if (3 <? Z.of_nat (List.length (path r))) then (STOP, st)
    else if String.eqb endKey "C" then (INCLUDE, st)
    else if String.eqb endKey "B" then (VStr "-1", st)
    else (VUndefined, st).

(** The decision function of the test with at most 3 hops. *)
Definition decide_max3 : decide_t unit :=
  fun st r cur nxt =>
    if (4 <? Z.of_nat (List.length (path r))) then (Stop, st)
    else if String.eqb nxt "C" then (Include, st)
    else (Continue, st).

(** Checking that no key occurs twice. *)
Fixpoint distinct (l : list key) : bool :=
  match l with
  | [] => true
  | k :: l' => negb (existsb (String.eqb k) l') && distinct l'
  end.

Definition wf_graphb {A : Type} (g : obj (obj A)) : bool :=
  forallb (fun entry => distinct (keys (snd entry))) g.

(** Least latency from A on the graph of the tests. *)
Definition from_A (k : key) : Z :=
  if String.eqb k "A" then 0
  else if String.eqb k "B" then 5
  else if String.eqb k "D" then 5
  else if String.eqb k "E" then 7
  else 9.

(** ** Notions used by the further properties *)

(** No latency of the graph is negative. *)
Definition nonneg_graph (g : Graph) : Prop :=
  forall a b w, edge_weight g a b = Some w -> 0 <= w.

Definition nonneg_graphb (g : Graph) : bool :=
  forallb (fun entry => forallb (fun e => 0 <=? snd e) (snd entry)) g.

(** A predicate that answers [STOP] for every candidate of more than [n]
    nodes. *)
Definition stops_beyond {St : Type} (n : nat) (predicate : predicate_t St) : Prop :=
  forall st r a b,
    (n < List.length (path r))%nat ->
    strict_eq (fst (predicate st r a b)) STOP = true.

(** A predicate that never answers [STOP]. *)
Definition never_stops {St : Type} (predicate : predicate_t St) : Prop :=
  forall st r a b, strict_eq (fst (predicate st r a b)) STOP = false.

(** A predicate without variables of its own. *)
Definition always_continue : predicate_t unit :=
  fun st r startKey endKey => (CONTINUE, st).

(** An outcome of [recurse] with [rs] put in front of its results. *)
Definition prepend {St : Type} (rs : list result) (out : option (list result * St))
  : option (list result * St) :=
  match out with
  | Some (added, st') => Some (rs ++ added, st')
  | None => None
  end.

(** The predicate answered [INCLUDE] for [r], called with the last two nodes
    of its path. *)
Definition included {St : Type} (predicate : predicate_t St) (r : result) : Prop :=
  exists st pre a b st1,
    path r = pre ++ [a; b] /\ predicate st r a b = (INCLUDE, st1).

(** The path of [r] goes on from [q]; [below q r] when by at least one
    node. *)
Definition extends_path (q : list key) (r : result) : Prop :=
  exists ext, path r = q ++ ext.

Definition below (q : list key) (r : result) : Prop :=
  exists x ext, path r = q ++ x :: ext.

(** [admits f g cur P W ext Wf]: from [cur], reached by [P] with latency [W],
    the nodes [ext] follow edges of [g], the status function [f] answers
    [INCLUDE] for the last candidate, of latency [Wf], and does not answer
    [STOP] for the candidates before it. *)
Inductive admits (f : result -> key -> key -> value) (g : Graph)
  : key -> list key -> Z -> list key -> Z -> Prop :=
| admits_include cur P W b w :
    edge_weight g cur b = Some w ->
    f (mkResult (P ++ [b]) (W + w)) cur b = INCLUDE ->
    admits f g cur P W [b] (W + w)
| admits_through cur P W b w ext Wf :
    edge_weight g cur b = Some w ->
    strict_eq (f (mkResult (P ++ [b]) (W + w)) cur b) STOP = false ->
    admits f g b (P ++ [b]) (W + w) ext Wf ->
    admits f g cur P W (b :: ext) Wf.

(** The status function of the test with at most 3 hops. *)
Definition status_max3 (r : result) (startKey endKey : key) : value :=
  fst (predicate_max3 tt r startKey endKey).

(** The shape shared by the predicates of the two tests that count hops:
    stop beyond [N] nodes, include a candidate that ends at C with an
    accepted number of nodes. *)
Definition status_hops (N : nat) (ok : nat -> bool) (r : result) (startKey endKey : key)
  : value :=
  if (N <? List.length (path r))%nat then STOP
  else if ok (List.length (path r)) && String.eqb endKey "C" then INCLUDE
  else CONTINUE.

(** The paths of at most [N] nodes, of an accepted number of nodes, that lead
    from [start] along edges of [g] to C, with their latency. *)
Definition hops_to_C (N : nat) (ok : nat -> bool) (g : Graph) (start : key) (r : result)
  : Prop :=
  exists ext,
    path r = start :: ext
    /\ ext <> []
    /\ (List.length (path r) <= N)%nat
    /\ ok (List.length (path r)) = true
    /\ last ext "" = "C"
    /\ Forall (is_edge g) (consecutive (path r))
    /\ latency r = path_weight g (path r).

(** The status function of the test with latency below 30. *)
Definition status_below30 (r : result) (startKey endKey : key) : value :=
  fst (predicate_below30 tt r startKey endKey).

(** Every latency of the graph is at least 1. *)
Definition positive_graph (g : Graph) : Prop :=
  forall k e m, In (e, m) (neighbors g k) -> 1 <= m.

Definition positive_graphb (g : Graph) : bool :=
  forallb (fun entry => forallb (fun e => 1 <=? snd e) (snd entry)) g.

(** [min <= x] for the running minimum of the shortest-trace tests. *)
Definition at_most (min : bound) (x : Z) : Prop :=
  exists z, min = Finite z /\ z <= x.

(** The latency of the last result, [Infinity] when there is none. *)
Definition final_min (rs : list result) : bound :=
  match rev rs with
  | [] => Infinity
  | r :: _ => Finite (latency r)
  end.

(** Appending a key unless it is there already; the keys of a list in the
    order of their first occurrences. *)
Definition add_first (acc : list key) (k : key) : list key :=
  if existsb (String.eqb k) acc then acc else acc ++ [k].

Definition first_occurrences (l : list key) : list key :=
  fold_left add_first l [].

(** The second characters of the traces that start with [s]. *)
Definition ends_from (s : key) (data : list string) : list key :=
  map (fun trace => char_key trace 1)
      (filter (fun trace => String.eqb (char_key trace 0) s) data).

(** * The tests of the program, run on the embedding *)

Example test_parse_csv_data :
  integer_graph (parse to_number "AB5,AD5,AE7,BC4,CD8,CE2,DC8,DE6,EB3") = Some graph.
Proof. reflexivity. Qed.

Example test_latency_A_D_C : getLatency graph ["A"; "D"; "C"] = VNum 13.
Proof. reflexivity. Qed.

Example test_exactly_4_hops :
  find 6 graph "A" predicate_exactly4 tt
  = Some ([mkResult ["A"; "B"; "C"; "D"; "C"] 25;
           mkResult ["A"; "D"; "C"; "D"; "C"] 29;
           mkResult ["A"; "D"; "E"; "B"; "C"] 18], tt).
Proof. reflexivity. Qed.

Example test_shortest_B_to_B :
  find 8 graph "B" predicate_shortest_B Infinity
  = Some ([mkResult ["B"; "C"; "D"; "C"; "E"; "B"] 25;
           mkResult ["B"; "C"; "D"; "E"; "B"] 21;
           mkResult ["B"; "C"; "E"; "B"] 9], Finite 9).
Proof. reflexivity. Qed.

Example test_below_30 :
  find 12 graph "C" predicate_below30 tt
  = Some ([mkResult ["C"; "D"; "C"] 16;
           mkResult ["C"; "D"; "C"; "E"; "B"; "C"] 25;
           mkResult ["C"; "D"; "E"; "B"; "C"] 21;
           mkResult ["C"; "E"; "B"; "C"] 9;
           mkResult ["C"; "E"; "B"; "C"; "D"; "C"] 25;
           mkResult ["C"; "E"; "B"; "C"; "E"; "B"; "C"] 18;
           mkResult ["C"; "E"; "B"; "C"; "E"; "B"; "C"; "E"; "B"; "C"] 27], tt).
Proof. reflexivity. Qed.

(** * Properties of getLatency *)

Lemma at_index_app_here (pre : list key) (a : key) (rest : list key) :
  at_index (pre ++ a :: rest) (List.length pre) = a.
Proof.
  unfold at_index. rewrite app_nth2 by lia. now rewrite Nat.sub_diag.
Qed.

Lemma getLatency_loop_walk (g : Graph) (rest pre : list key) (a : key) (result : Z) :
  getLatency_loop g (pre ++ a :: rest) (S (List.length pre)) (List.length rest) result
  = walk g a rest result.
Proof.
  revert pre a result.
  induction rest as [| b rest IH]; intros pre a result; simpl.
  - reflexivity.
  - rewrite Nat.sub_0_r, at_index_app_here.
    replace (at_index (pre ++ a :: b :: rest) (S (List.length pre))) with b.
    + unfold edge_weight. destruct (get (neighbors g a) b) as [w |]; [| reflexivity].
      specialize (IH (pre ++ [a]) b (result + w)).
      rewrite <- app_assoc, length_app in IH. simpl in IH.
      now rewrite Nat.add_1_r in IH.
    + change (pre ++ a :: b :: rest) with (pre ++ [a] ++ b :: rest).
      rewrite app_assoc.
      replace (S (List.length pre)) with (List.length (pre ++ [a]))
        by (rewrite length_app; simpl; lia).
      now rewrite at_index_app_here.
Qed.

Lemma getLatency_cons (g : Graph) (a : key) (rest : list key) :
  getLatency g (a :: rest) = walk g a rest 0.
Proof.
  unfold getLatency. simpl. rewrite Nat.sub_0_r.
  exact (getLatency_loop_walk g rest [] a 0).
Qed.

Lemma walk_valid (g : Graph) (rest : list key) (a : key) (result : Z) :
  Forall (is_edge g) (consecutive (a :: rest)) ->
  walk g a rest result = VNum (result + path_weight g (a :: rest)).
Proof.
  revert a result.
  induction rest as [| b rest IH]; intros a result Hvalid.
  - simpl. unfold path_weight. simpl. now rewrite Z.add_0_r.
  - change (consecutive (a :: b :: rest)) with ((a, b) :: consecutive (b :: rest)) in Hvalid.
    inversion Hvalid as [| e l Hedge Hrest]; subst.
    simpl walk. unfold is_edge in Hedge. simpl in Hedge.
    destruct (edge_weight g a b) as [w |] eqn:Hw; [| congruence].
    rewrite (IH b (result + w) Hrest).
    unfold path_weight.
    change (consecutive (a :: b :: rest)) with ((a, b) :: consecutive (b :: rest)).
    simpl. unfold weight at 2. simpl. rewrite Hw. f_equal. lia.
Qed.

Lemma getLatency_valid (g : Graph) (p : list key) :
  Forall (is_edge g) (consecutive p) ->
  getLatency g p = VNum (path_weight g p).
Proof.
  destruct p as [| a rest]; intros Hvalid.
  - reflexivity.
  - rewrite getLatency_cons, (walk_valid g rest a 0 Hvalid). reflexivity.
Qed.

Lemma walk_gap (g : Graph) (p1 : list key) (start a b : key) (p2 : list key) (result : Z) :
  edge_weight g a b = None ->
  walk g start (p1 ++ a :: b :: p2) result = NO_SUCH_TRACE.
Proof.
  intros Hgap. revert start result.
  induction p1 as [| c p1 IH]; intros start result; simpl.
  - destruct (edge_weight g start a); [| reflexivity]. now rewrite Hgap.
  - destruct (edge_weight g start c); [apply IH | reflexivity].
Qed.





(** C5 fails: on the graph of the tests the empty path evaluates to the
    ordinary sum 0. *)
Lemma getLatency_empty_path_returns :
  getLatency graph [] = VNum 0.
Proof. reflexivity. Qed.

(** C5, amended. For every graph, [getLatency] of the empty path returns the
    number 0: the loop body never runs. *)
Theorem getLatency_empty_path_zero (g : Graph) :
  getLatency g [] = VNum 0.
Proof. reflexivity. Qed.

(** * Properties of objects *)

Lemma get_In {A : Type} (o : obj A) (k : key) (v : A) :
  get o k = Some v -> In (k, v) o.
Proof.
  induction o as [| [k' v'] o IH]; simpl; [discriminate |].
  destruct (String.eqb_spec k' k) as [-> | _].
  - intros [= ->]. now left.
  - intros H. right. now apply IH.
Qed.

Lemma In_get {A : Type} (o : obj A) (k : key) (v : A) :
  wf_obj o -> In (k, v) o -> get o k = Some v.
Proof.
  unfold wf_obj, keys.
  induction o as [| [k' v'] o IH]; simpl; [contradiction |].
  intros Hnodup [Heq | Hin].
  - injection Heq as -> ->. now rewrite String.eqb_refl.
  - inversion Hnodup as [| x l Hnotin Hnodup']; subst.
    destruct (String.eqb_spec k' k) as [-> | _].
    + exfalso. apply Hnotin. now apply (in_map fst) in Hin.
    + now apply IH.
Qed.

Lemma wf_neighbors {A : Type} (g : obj (obj A)) (k : key) :
  wf_graph g -> wf_obj (neighbors g k).
Proof.
  intros Hwf. unfold neighbors.
  destruct (get g k) as [o |] eqn:Hget.
  - exact (Hwf k o (get_In g k o Hget)).
  - constructor.
Qed.

Lemma get_replace_same {A : Type} (o : obj A) (k : key) (v : A) :
  has o k = true -> get (replace o k v) k = Some v.
Proof.
  unfold has. induction o as [| [k' v'] o IH]; simpl; [discriminate |].
  destruct (String.eqb_spec k' k) as [-> | Hne]; simpl.
  - now rewrite String.eqb_refl.
  - intros H. destruct (String.eqb_spec k' k); [contradiction | now apply IH].
Qed.

Lemma get_replace_other {A : Type} (o : obj A) (k k' : key) (v : A) :
  k' <> k -> get (replace o k v) k' = get o k'.
Proof.
  intros Hne. induction o as [| [k0 v0] o IH]; simpl; [reflexivity |].
  destruct (String.eqb_spec k0 k) as [-> | _]; simpl.
  - destruct (String.eqb_spec k k'); [congruence | reflexivity].
  - now rewrite IH.
Qed.

Lemma get_insert_index_same {A : Type} (o : obj A) (n : N) (k : key) (v : A) :
  get o k = None -> get (insert_index o n k v) k = Some v.
Proof.
  induction o as [| [k' v'] o IH]; simpl.
  - now rewrite String.eqb_refl.
  - destruct (String.eqb_spec k' k) as [-> | Hne]; [discriminate |].
    intros Hget.
    destruct (array_index k') as [m |]; [destruct (m <? n)%N |]; simpl;
      rewrite ?String.eqb_refl; try reflexivity.
    destruct (String.eqb_spec k' k); [contradiction | now apply IH].
Qed.

Lemma get_insert_index_other {A : Type} (o : obj A) (n : N) (k k' : key) (v : A) :
  k' <> k -> get (insert_index o n k v) k' = get o k'.
Proof.
  intros Hne. induction o as [| [k0 v0] o IH]; simpl.
  - destruct (String.eqb_spec k k'); [congruence | reflexivity].
  - destruct (array_index k0) as [m |]; [destruct (m <? n)%N |]; simpl.
    + now rewrite IH.
    + destruct (String.eqb_spec k k'); [congruence | reflexivity].
    + destruct (String.eqb_spec k k'); [congruence | reflexivity].
Qed.

Lemma get_app_new_same {A : Type} (o : obj A) (k : key) (v : A) :
  get o k = None -> get (o ++ [(k, v)]) k = Some v.
Proof.
  induction o as [| [k' v'] o IH]; simpl.
  - now rewrite String.eqb_refl.
  - destruct (String.eqb k' k); [discriminate | exact IH].
Qed.

Lemma get_app_new_other {A : Type} (o : obj A) (k k' : key) (v : A) :
  k' <> k -> get (o ++ [(k, v)]) k' = get o k'.
Proof.
  intros Hne. induction o as [| [k0 v0] o IH]; simpl.
  - destruct (String.eqb_spec k k'); [congruence | reflexivity].
  - now rewrite IH.
Qed.

Lemma get_set_same {A : Type} (o : obj A) (k : key) (v : A) :
  get (set o k v) k = Some v.
Proof.
  unfold set. destruct (has o k) eqn:Hhas.
  - now apply get_replace_same.
  - assert (Hget : get o k = None).
    { unfold has in Hhas. destruct (get o k); [discriminate | reflexivity]. }
    unfold add_property. destruct (array_index k).
    + now apply get_insert_index_same.
    + now apply get_app_new_same.
Qed.

Lemma get_set_other {A : Type} (o : obj A) (k k' : key) (v : A) :
  k' <> k -> get (set o k v) k' = get o k'.
Proof.
  intros Hne. unfold set, add_property.
  destruct (has o k); [now apply get_replace_other |].
  destruct (array_index k); [now apply get_insert_index_other | now apply get_app_new_other].
Qed.

(** Assignment keeps an object an object. *)

Lemma keys_replace {A : Type} (o : obj A) (k : key) (v : A) :
  keys (replace o k v) = keys o.
Proof.
  unfold keys. induction o as [| [k' v'] o IH]; simpl; [reflexivity |].
  destruct (String.eqb k' k); simpl; [reflexivity | now rewrite IH].
Qed.

Lemma In_keys_get {A : Type} (o : obj A) (k : key) :
  In k (keys o) -> get o k <> None.
Proof.
  unfold keys. induction o as [| [k' v'] o IH]; simpl; [contradiction |].
  intros [-> | Hin].
  - rewrite String.eqb_refl. discriminate.
  - destruct (String.eqb k' k); [discriminate | now apply IH].
Qed.

Lemma In_insert_index {A : Type} (o : obj A) (n : N) (k : key) (v : A) (e : key * A) :
  In e (insert_index o n k v) -> e = (k, v) \/ In e o.
Proof.
  induction o as [| [k' v'] o IH]; simpl.
  - intros [<- | []]. now left.
  - destruct (array_index k') as [m |]; [destruct (m <? n)%N |]; simpl.
    + intros [<- | Hin]; [right; now left |].
      destruct (IH Hin); [now left | right; now right].
    + intros [<- | Hin]; [now left | now right].
    + intros [<- | Hin]; [now left | now right].
Qed.

Lemma NoDup_insert_index {A : Type} (o : obj A) (n : N) (k : key) (v : A) :
  get o k = None -> wf_obj o -> wf_obj (insert_index o n k v).
Proof.
  unfold wf_obj, keys.
  induction o as [| [k' v'] o IH]; simpl; intros Hget Hnodup.
  - constructor; [intros [] | constructor].
  - assert (Hfresh : ~ In k (k' :: map fst o)).
    { intros Hin. apply (In_keys_get ((k', v') :: o) k Hin). exact Hget. }
    destruct (String.eqb_spec k' k) as [-> | Hne]; [discriminate |].
    inversion Hnodup as [| x l Hnotin Hnodup']; subst.
    destruct (array_index k') as [m |]; [destruct (m <? n)%N |]; simpl.
    + constructor; [| now apply IH].
      intros Hin. apply in_map_iff in Hin as [[k0 v0] [Hk0 Hin]]. simpl in Hk0. subst k0.
      apply In_insert_index in Hin as [Heq | Hin]; [congruence |].
      apply Hnotin. now apply (in_map fst) in Hin.
    + constructor; [exact Hfresh | exact Hnodup].
    + constructor; [exact Hfresh | exact Hnodup].
Qed.

Lemma wf_set {A : Type} (o : obj A) (k : key) (v : A) :
  wf_obj o -> wf_obj (set o k v).
Proof.
  intros Hwf. unfold set.
  destruct (has o k) eqn:Hhas.
  - unfold wf_obj. now rewrite keys_replace.
  - assert (Hget : get o k = None).
    { unfold has in Hhas. destruct (get o k); [discriminate | reflexivity]. }
    unfold add_property. destruct (array_index k).
    + now apply NoDup_insert_index.
    + unfold wf_obj, keys in *. rewrite map_app. simpl.
      apply NoDup_app; [exact Hwf | constructor; [intros [] | constructor] |].
      intros x Hin [Heq | []]. subst x.
      now apply (In_keys_get o k Hin).
Qed.

Lemma In_replace {A : Type} (o : obj A) (k : key) (v : A) (e : key * A) :
  In e (replace o k v) -> e = (k, v) \/ In e o.
Proof.
  induction o as [| [k' v'] o IH]; simpl; [contradiction |].
  destruct (String.eqb_spec k' k) as [-> | _]; simpl.
  - intros [<- | Hin]; [now left | right; now right].
  - intros [<- | Hin]; [right; now left |].
    destruct (IH Hin); [now left | right; now right].
Qed.

Lemma In_set {A : Type} (o : obj A) (k : key) (v : A) (e : key * A) :
  In e (set o k v) -> e = (k, v) \/ In e o.
Proof.
  unfold set, add_property.
  destruct (has o k); [apply In_replace |].
  destruct (array_index k); [apply In_insert_index |].
  intros Hin. apply in_app_or in Hin as [Hin | [<- | []]]; [now right | now left].
Qed.

Lemma distinct_NoDup (l : list key) : distinct l = true -> NoDup l.
Proof.
  induction l as [| k l IH]; simpl; [constructor |].
  intros H. apply andb_prop in H as [Hk Hl].
  constructor; [| now apply IH].
  intros Hin. apply negb_true_iff in Hk.
  assert (Hex : existsb (String.eqb k) l = true).
  { apply existsb_exists. exists k. split; [assumption | apply String.eqb_refl]. }
  congruence.
Qed.

Lemma wf_graphb_sound {A : Type} (g : obj (obj A)) :
  wf_graphb g = true -> wf_graph g.
Proof.
  unfold wf_graphb, wf_graph, wf_obj. intros H k o Hin.
  rewrite forallb_forall in H. apply distinct_NoDup. exact (H (k, o) Hin).
Qed.

(** * Properties of recurse *)

Lemma consecutive_snoc (p : list key) (a b : key) :
  consecutive ((p ++ [a]) ++ [b]) = consecutive (p ++ [a]) ++ [(a, b)].
Proof.
  induction p as [| c p IH].
  - reflexivity.
  - change (((c :: p) ++ [a]) ++ [b]) with (c :: ((p ++ [a]) ++ [b])).
    change ((c :: p) ++ [a]) with (c :: (p ++ [a])).
    simpl consecutive. rewrite IH.
    destruct p; reflexivity.
Qed.

Lemma sum_app (l1 l2 : list Z) : sum (l1 ++ l2) = sum l1 + sum l2.
Proof.
  unfold sum. induction l1 as [| x l1 IH]; simpl; [reflexivity | lia].
Qed.

Lemma reached_produced (g : Graph) (start cur : key) (p : list key) (w : Z) :
  reached g start cur p w -> produced_from g start (mkResult p w).
Proof.
  intros (_ & Hhd & Hvalid & Hw). unfold produced_from. simpl.
  repeat split; try assumption.
  rewrite Hw. now apply getLatency_valid.
Qed.

Lemma reached_extend (g : Graph) (start cur nxt : key) (p : list key) (w m : Z) :
  reached g start cur p w ->
  edge_weight g cur nxt = Some m ->
  reached g start nxt (p ++ [nxt]) (w + m).
Proof.
  intros ([p' ->] & Hhd & Hvalid & Hw) Hedge.
  unfold reached. split; [now exists (p' ++ [cur]) |].
  split; [| split].
  - destruct p'; simpl in *; assumption.
  - rewrite consecutive_snoc. apply Forall_app. split; [assumption |].
    constructor; [| constructor]. unfold is_edge. simpl. congruence.
  - unfold path_weight in *. rewrite consecutive_snoc, map_app, sum_app.
    simpl. unfold weight at 2. simpl. rewrite Hedge. lia.
Qed.

Section Invariant.

Variable St : Type.
Variable predicate : predicate_t St.
Variable g : Graph.
Variable start : key.
Hypothesis g_wf : wf_graph g.

Lemma recurse_entries_good
      (rec : recurse_t St)
      (cur : key) (p : list key) (w : Z) :
  (forall k p' w' rs st rs' st',
      reached g start k p' w' -> Forall (produced_from g start) rs ->
      rec k p' w' rs predicate st = Some (rs', st') ->
      Forall (produced_from g start) rs') ->
  reached g start cur p w ->
  forall entries rs st rs' st',
    (forall e, In e entries -> In e (neighbors g cur)) ->
    Forall (produced_from g start) rs ->
    recurse_entries rec cur p w entries rs predicate st = Some (rs', st') ->
    Forall (produced_from g start) rs'.
Proof.
  intros Hrec Hreached.
  induction entries as [| [nxt m] rest IH]; intros rs st rs' st' Hsub Hgood; simpl.
  - intros [= <- _]. exact Hgood.
  - assert (Hnext : reached g start nxt (p ++ [nxt]) (w + m)).
    { apply reached_extend with (cur := cur); [assumption |].
      apply In_get; [now apply wf_neighbors | apply Hsub; now left]. }
    assert (Hsub' : forall e, In e rest -> In e (neighbors g cur))
      by (intros e He; apply Hsub; now right).
    destruct (predicate st (mkResult (p ++ [nxt]) (w + m)) cur nxt) as [status st1].
    destruct (strict_eq status STOP).
    + apply IH; assumption.
    + set (rs1 := if strict_eq status INCLUDE
                  then rs ++ [mkResult (p ++ [nxt]) (w + m)] else rs).
      assert (Hgood1 : Forall (produced_from g start) rs1).
      { subst rs1. destruct (strict_eq status INCLUDE); [| assumption].
        apply Forall_app. split; [assumption |].
        constructor; [| constructor]. now apply reached_produced with (cur := nxt). }
      destruct (rec nxt (p ++ [nxt]) (w + m) rs1 predicate st1) as [[rs2 st2] |] eqn:Hcall;
        [| discriminate].
      apply IH; [assumption |].
      exact (Hrec _ _ _ _ _ _ _ Hnext Hgood1 Hcall).
Qed.

Lemma recurse_good (depth : nat) :
  forall cur p w rs st rs' st',
    reached g start cur p w -> Forall (produced_from g start) rs ->
    recurse depth g cur p w rs predicate st = Some (rs', st') ->
    Forall (produced_from g start) rs'.
Proof.
  induction depth as [| depth IH]; intros cur p w rs st rs' st' Hreached Hgood; simpl.
  - discriminate.
  - apply recurse_entries_good; auto.
Qed.

End Invariant.



(** ** More depth changes no answer *)

Section Depth.

Variable St : Type.
Variable predicate : predicate_t St.

Lemma recurse_entries_mono
      (rec rec' : recurse_t St)
      (cur : key) (p : list key) (w : Z) :
  (forall k p' w' rs st out,
      rec k p' w' rs predicate st = Some out -> rec' k p' w' rs predicate st = Some out) ->
  forall entries rs st out,
    recurse_entries rec cur p w entries rs predicate st = Some out ->
    recurse_entries rec' cur p w entries rs predicate st = Some out.
Proof.
  intros Hrec.
  induction entries as [| [nxt m] rest IH]; intros rs st out; simpl; [trivial |].
  destruct (predicate st (mkResult (p ++ [nxt]) (w + m)) cur nxt) as [status st1].
  destruct (strict_eq status STOP); [apply IH |].
  match goal with
  | |- context [rec nxt ?a ?b ?c predicate ?d] =>
      destruct (rec nxt a b c predicate d) as [[rs2 st2] |] eqn:Hcall; [| discriminate];
      rewrite (Hrec _ _ _ _ _ _ Hcall)
  end.
  apply IH.
Qed.

Lemma recurse_mono (g : Graph) (depth : nat) :
  forall depth' cur p w rs st out,
    (depth <= depth')%nat ->
    recurse depth g cur p w rs predicate st = Some out ->
    recurse depth' g cur p w rs predicate st = Some out.
Proof.
  induction depth as [| depth IH]; intros depth' cur p w rs st out Hle; simpl.
  - discriminate.
  - destruct depth' as [| depth']; [lia |]. simpl.
    apply recurse_entries_mono.
    intros k p' w' rs0 st0 out0. apply IH. lia.
Qed.

Lemma find_deeper (g : Graph) (start : key) (st : St) (depth extra : nat) out :
  find depth g start predicate st = Some out ->
  find (depth + extra) g start predicate st = Some out.
Proof.
  unfold find. apply recurse_mono. lia.
Qed.

End Depth.

(** ** The program against the decision contract *)

Section Refinement.

Variable St : Type.
Variable decide : decide_t St.
Variable g : Graph.

Lemma recurse_entries_explore
      (rec : recurse_t St)
      (cur : key) (P : list key) (W : Z) :
  (forall k P' W' acc st acc' st',
      rec k P' W' acc (predicate_of decide) st = Some (acc', st') ->
      explore decide g k P' W' (neighbors g k) acc st acc' st') ->
  forall edges acc st acc' st',
    recurse_entries rec cur P W edges acc (predicate_of decide) st = Some (acc', st') ->
    explore decide g cur P W edges acc st acc' st'.
Proof.
  intros Hrec.
  induction edges as [| [nxt w] rest IH]; intros acc st acc' st'; simpl.
  - intros [= <- <-]. constructor.
  - unfold predicate_of at 1.
    destruct (decide st (mkResult (P ++ [nxt]) (W + w)) cur nxt) as [d st1] eqn:Hd.
    destruct d; simpl.
    + intros H. eapply explore_stop; eauto.
    + destruct (rec nxt (P ++ [nxt]) (W + w) acc (predicate_of decide) st1) as [[acc2 st2] |] eqn:Hcall;
        [| discriminate].
      intros H. eapply explore_continue; eauto.
    + destruct (rec nxt (P ++ [nxt]) (W + w) (acc ++ [mkResult (P ++ [nxt]) (W + w)])
                    (predicate_of decide) st1)
        as [[acc2 st2] |] eqn:Hcall; [| discriminate].
      intros H. eapply explore_include; eauto.
Qed.

Lemma recurse_explore (depth : nat) :
  forall cur P W acc st acc' st',
    recurse depth g cur P W acc (predicate_of decide) st = Some (acc', st') ->
    explore decide g cur P W (neighbors g cur) acc st acc' st'.
Proof.
  induction depth as [| depth IH]; intros cur P W acc st acc' st'; simpl.
  - discriminate.
  - apply recurse_entries_explore. exact IH.
Qed.

Lemma explore_recurse_entries cur P W edges acc st acc' st' :
  explore decide g cur P W edges acc st acc' st' ->
  exists depth,
    recurse_entries (recurse depth g) cur P W edges acc (predicate_of decide) st
    = Some (acc', st').
Proof.
  induction 1 as
    [ cur P W acc st
    | cur P W nxt w rest acc st st1 acc' st' Hd _ [d IH]
    | cur P W nxt w rest acc st st1 acc2 st2 acc' st' Hd _ [d1 IH1] _ [d2 IH2]
    | cur P W nxt w rest acc st st1 acc2 st2 acc' st' Hd _ [d1 IH1] _ [d2 IH2] ].
  - exists O. reflexivity.
  - exists d. simpl. unfold predicate_of at 1. rewrite Hd. exact IH.
  - exists (Nat.max (S d1) d2).
    assert (Hl : (S d1 <= Nat.max (S d1) d2)%nat) by apply Nat.le_max_l.
    assert (Hr : (d2 <= Nat.max (S d1) d2)%nat) by apply Nat.le_max_r.
    generalize dependent (Nat.max (S d1) d2). intros D Hl Hr.
    cbn [recurse_entries]. unfold predicate_of at 1. rewrite Hd.
    cbn [tag]. cbv [STOP INCLUDE CONTINUE strict_eq Z.eqb Pos.eqb].
    rewrite (recurse_mono St (predicate_of decide) g (S d1) D nxt _ _ _ _ _ Hl IH1).
    apply recurse_entries_mono with (rec := recurse d2 g); [| exact IH2].
    intros k P' W' rs0 st0 out. now apply recurse_mono.
  - exists (Nat.max (S d1) d2).
    assert (Hl : (S d1 <= Nat.max (S d1) d2)%nat) by apply Nat.le_max_l.
    assert (Hr : (d2 <= Nat.max (S d1) d2)%nat) by apply Nat.le_max_r.
    generalize dependent (Nat.max (S d1) d2). intros D Hl Hr.
    cbn [recurse_entries]. unfold predicate_of at 1. rewrite Hd.
    cbn [tag]. cbv [STOP INCLUDE CONTINUE strict_eq Z.eqb Pos.eqb].
    rewrite (recurse_mono St (predicate_of decide) g (S d1) D nxt _ _ _ _ _ Hl IH1).
    apply recurse_entries_mono with (rec := recurse d2 g); [| exact IH2].
    intros k P' W' rs0 st0 out. now apply recurse_mono.
Qed.

End Refinement.

(** C2. For every graph, start node and decision function, [find] run with
    the tags of the decisions returns a result sequence exactly when the
    three-way contract derives it: on Stop the candidate is dropped and not
    extended, on Include it is appended and extended, on Continue it is
    extended without being appended. *)
Theorem find_obeys_decision_contract
        (St : Type) (decide : decide_t St) (g : Graph) (start : key)
        (st : St) (rs : list result) (st' : St) :
  (exists depth, find depth g start (predicate_of decide) st = Some (rs, st'))
  <-> explore decide g start [start] 0 (neighbors g start) [] st rs st'.
Proof.
  split.
  - intros [depth Hfind]. exact (recurse_explore St decide g depth _ _ _ _ _ _ _ Hfind).
  - intros Hexplore.
    destruct (explore_recurse_entries St decide g _ _ _ _ _ _ _ _ Hexplore) as [depth H].
    exists (S depth). exact H.
Qed.

Lemma find_obeys_decision_contract_witness :
  explore decide_max3 graph "C" ["C"] 0 (neighbors graph "C") [] tt
          [mkResult ["C"; "D"; "C"] 16; mkResult ["C"; "E"; "B"; "C"] 9] tt.
Proof.
  apply (proj1 (find_obeys_decision_contract unit decide_max3 graph "C" tt _ tt)).
  exists 4%nat. reflexivity.
Defined.

(** ** Statuses other than the two tested tags *)

Section OtherStatus.

Variable St : Type.
Variable predicate : predicate_t St.

Lemma recurse_entries_other_as_continue
      (rec rec' : recurse_t St)
      (cur : key) (p : list key) (w : Z) :
  (forall k p' w' rs st,
      rec k p' w' rs predicate st = rec' k p' w' rs (other_as_continue predicate) st) ->
  forall entries rs st,
    recurse_entries rec cur p w entries rs predicate st
    = recurse_entries rec' cur p w entries rs (other_as_continue predicate) st.
Proof.
  intros Hrec.
  induction entries as [| [nxt m] rest IH]; intros rs st; simpl; [reflexivity |].
  unfold other_as_continue at 1, other_status.
  destruct (predicate st (mkResult (p ++ [nxt]) (w + m)) cur nxt) as [status st1].
  destruct (strict_eq status STOP) eqn:Hstop; simpl.
  - rewrite Hstop. apply IH.
  - destruct (strict_eq status INCLUDE) eqn:Hinclude; simpl.
    + rewrite Hstop, Hinclude, Hrec.
      destruct (rec' nxt (p ++ [nxt]) (w + m) _ _ st1) as [[rs2 st2] |];
        [apply IH | reflexivity].
    + rewrite Hrec.
      destruct (rec' nxt (p ++ [nxt]) (w + m) rs _ st1) as [[rs2 st2] |];
        [apply IH | reflexivity].
Qed.

Lemma recurse_other_as_continue (g : Graph) (depth : nat) :
  forall cur p w rs st,
    recurse depth g cur p w rs predicate st
    = recurse depth g cur p w rs (other_as_continue predicate) st.
Proof.
  induction depth as [| depth IH]; intros cur p w rs st; simpl; [reflexivity |].
  apply recurse_entries_other_as_continue. exact IH.
Qed.

End OtherStatus.

(** C10. When the predicate returns a value that is neither [STOP] nor
    [INCLUDE] under [===], the loop leaves the results as they are and
    recurses from the new node; and [find] returns what it returns when every
    such value is replaced by [CONTINUE]. *)
Theorem other_status_acts_as_continue :
  (forall (St : Type) (predicate : predicate_t St)
          (rec : recurse_t St)
          (startKey : key) (startPath : list key) (startLatency : Z)
          (endKey : key) (meanLatency : Z) (rest : list (key * Z))
          (results : list result) (st : St) (status : value) (st1 : St),
      predicate st (mkResult (startPath ++ [endKey]) (startLatency + meanLatency))
                startKey endKey = (status, st1) ->
      strict_eq status STOP = false ->
      strict_eq status INCLUDE = false ->
      recurse_entries rec startKey startPath startLatency ((endKey, meanLatency) :: rest)
                      results predicate st
      = match rec endKey (startPath ++ [endKey]) (startLatency + meanLatency) results
                  predicate st1 with
        | None => None
        | Some (results2, st2) =>
            recurse_entries rec startKey startPath startLatency rest results2 predicate st2
        end)
  /\ (forall (St : Type) (predicate : predicate_t St) (depth : nat) (g : Graph)
             (start : key) (st : St),
         find depth g start predicate st
         = find depth g start (other_as_continue predicate) st).
Proof.
  split.
  - intros St predicate rec startKey startPath startLatency endKey meanLatency rest
           results st status st1 Hcall Hstop Hinclude.
    simpl. rewrite Hcall, Hstop, Hinclude. reflexivity.
  - intros St predicate depth g start st. unfold find.
    apply recurse_other_as_continue.
Qed.

Lemma other_status_acts_as_continue_witness :
  predicate_odd tt (mkResult (["A"] ++ ["B"]) (0 + 5)) "A" "B" = (VStr "-1", tt)
  /\ strict_eq (VStr "-1") STOP = false
  /\ strict_eq (VStr "-1") INCLUDE = false
  /\ recurse_entries (recurse 3 graph) "A" ["A"] 0 [("B", 5)]
                     [] predicate_odd tt
     = Some ([mkResult ["A"; "B"; "C"] 9], tt).
Proof.
  split; [reflexivity |]. split; [reflexivity |]. split; [reflexivity |].
  etransitivity.
  - apply (proj1 other_status_acts_as_continue unit predicate_odd
             (recurse 3 graph) "A" ["A"] 0 "B" 5 [] [] tt
             (VStr "-1") tt); reflexivity.
  - reflexivity.
Defined.

(** C7. For every graph and every node that is missing from it or has no
    outgoing edge, the neighbor lookup is the empty object, and [find] from
    that node returns no result, for every predicate. *)
Theorem find_from_childless_node (g : Graph) (node : key) :
  get g node = None \/ get g node = Some [] ->
  neighbors g node = []
  /\ forall (St : Type) (predicate : predicate_t St) (depth : nat) (st : St),
      find (S depth) g node predicate st = Some ([], st).
Proof.
  intros Hnode.
  assert (Hempty : neighbors g node = []).
  { unfold neighbors. destruct Hnode as [-> | ->]; reflexivity. }
  split; [exact Hempty |].
  intros St predicate depth st. unfold find. simpl. now rewrite Hempty.
Qed.

Lemma find_from_childless_node_witness :
  (get graph "Z" = None \/ get graph "Z" = Some [])
  /\ neighbors graph "Z" = []
  /\ find 1 graph "Z" predicate_max3 tt = Some ([], tt).
Proof.
  assert (H : get graph "Z" = None \/ get graph "Z" = Some [])
    by (left; reflexivity).
  split; [exact H |].
  destruct (find_from_childless_node graph "Z" H) as [Hn Hf].
  split; [exact Hn | exact (Hf unit predicate_max3 O tt)].
Defined.

(** C8. On the graph of the tests, [find] from C with the predicate that
    stops beyond 4 nodes and includes on reaching C returns C-D-C with
    latency 16 and then C-E-B-C with latency 9, and nothing else. *)
Theorem find_cycles_of_C_within_3_hops (extra : nat) :
  find (4 + extra) graph "C" predicate_max3 tt
  = Some ([mkResult ["C"; "D"; "C"] 16; mkResult ["C"; "E"; "B"; "C"] 9], tt).
Proof.
  apply find_deeper. reflexivity.
Qed.

Lemma graph_edge_from_A (a b : key) (w : Z) :
  edge_weight graph a b = Some w -> from_A b <= from_A a + w.
Proof.
  unfold edge_weight, neighbors. intros H.
  destruct (get graph a) as [o |] eqn:Ha; [| discriminate].
  apply get_In in Ha. apply get_In in H.
  simpl in Ha.
  repeat (destruct Ha as [Ha | Ha];
          [injection Ha as <- <-; simpl in H;
           repeat (destruct H as [H | H]; [injection H as <- <-; vm_compute; discriminate |]);
           contradiction |]).
  contradiction.
Qed.

Lemma last_cons_default (p : list key) :
  forall a b, last (b :: p) a = last p b.
Proof.
  induction p as [| c p IH]; intros a b; [reflexivity |].
  change (last (b :: c :: p) a) with (last (c :: p) a).
  now rewrite (IH a c), (IH b c).
Qed.

Lemma path_at_least_from_A (p : list key) :
  forall a,
    Forall (is_edge graph) (consecutive (a :: p)) ->
    from_A (last p a) <= from_A a + path_weight graph (a :: p).
Proof.
  induction p as [| b p IH]; intros a Hvalid.
  - unfold path_weight. simpl. lia.
  - change (consecutive (a :: b :: p)) with ((a, b) :: consecutive (b :: p)) in Hvalid.
    inversion Hvalid as [| e l Hedge Hrest]; subst.
    specialize (IH b Hrest).
    unfold is_edge in Hedge. simpl in Hedge.
    destruct (edge_weight graph a b) as [w |] eqn:Hw; [| congruence].
    pose proof (graph_edge_from_A a b w Hw) as Hstep.
    unfold path_weight in *.
    change (consecutive (a :: b :: p)) with ((a, b) :: consecutive (b :: p)).
    set (tl := consecutive (b :: p)) in *.
    simpl map. simpl sum. unfold weight at 1. simpl fst. simpl snd. rewrite Hw.
    rewrite last_cons_default.
    lia.
Qed.

(** C9. On the graph of the tests, [find] from A with the predicate that
    stops at a latency of the running minimum or more and, on reaching C,
    lowers the minimum and includes, ends with the minimum at 9 and the single
    result A-B-C of latency 9; and no path from A to C weighs less than 9. *)
Theorem find_shortest_A_to_C :
  (forall extra : nat,
      find (3 + extra) graph "A" predicate_shortest Infinity
      = Some ([mkResult ["A"; "B"; "C"] 9], Finite 9))
  /\ getLatency graph ["A"; "B"; "C"] = VNum 9
  /\ (forall p : list key,
         Forall (is_edge graph) (consecutive ("A" :: p)) ->
         last p "A" = "C" ->
         9 <= sum (map (weight graph) (consecutive ("A" :: p)))).
Proof.
  split; [| split].
  - intros extra. apply find_deeper. reflexivity.
  - reflexivity.
  - intros p Hvalid Hlast.
    pose proof (path_at_least_from_A p "A" Hvalid) as H.
    rewrite Hlast in H. exact H.
Qed.

Lemma find_shortest_A_to_C_witness :
  Forall (is_edge graph) (consecutive ("A" :: ["D"; "C"]))
  /\ last ["D"; "C"] "A" = "C"
  /\ 9 <= sum (map (weight graph) (consecutive ("A" :: ["D"; "C"]))).
Proof.
  assert (H : Forall (is_edge graph) (consecutive ("A" :: ["D"; "C"]))).
  { repeat constructor; discriminate. }
  split; [exact H |]. split; [reflexivity |].
  exact (proj2 (proj2 find_shortest_A_to_C) ["D"; "C"] H eq_refl).
Defined.

(** * Properties of parse *)

Section ParseFacts.

Variable W : Type.
Variable to_number : string -> W.

Lemma parse_trace_here (results : obj (obj W)) (trace : string) :
  get (neighbors (parse_trace to_number results trace) (char_key trace 0)) (char_key trace 1)
  = Some (to_number (substr 2 trace)).
Proof.
  unfold parse_trace, neighbors at 1.
  rewrite get_set_same. apply get_set_same.
Qed.

Lemma parse_trace_elsewhere (results : obj (obj W)) (trace : string) (s e : key) :
  s <> char_key trace 0 \/ e <> char_key trace 1 ->
  get (neighbors (parse_trace to_number results trace) s) e = get (neighbors results s) e.
Proof.
  intros Hother. unfold parse_trace.
  set (start := char_key trace 0) in *. set (end_ := char_key trace 1) in *.
  set (results1 := if has results start then results else set results start []).
  assert (Hsame : forall k, neighbors results1 k = neighbors results k).
  { intros k. subst results1. unfold neighbors.
    destruct (has results start) eqn:Hhas; [reflexivity |].
    destruct (String.eqb_spec k start) as [-> | Hne].
    - rewrite get_set_same. unfold has in Hhas.
      destruct (get results start); [discriminate | reflexivity].
    - now rewrite get_set_other. }
  destruct (String.eqb_spec s start) as [-> | Hne].
  - destruct Hother as [Hs | He]; [contradiction |].
    unfold neighbors at 1. rewrite get_set_same, get_set_other by assumption.
    now rewrite Hsame.
  - unfold neighbors at 1. rewrite get_set_other by assumption.
    fold (neighbors results1 s). now rewrite Hsame.
Qed.

Lemma parse_traces_keep (later : list string) :
  forall (results : obj (obj W)) (s e : key),
    (forall t, In t later -> s <> char_key t 0 \/ e <> char_key t 1) ->
    get (neighbors (fold_left (parse_trace to_number) later results) s) e
    = get (neighbors results s) e.
Proof.
  induction later as [| t later IH]; intros results s e Hother; simpl; [reflexivity |].
  rewrite IH by (intros t' Hin; apply Hother; now right).
  apply parse_trace_elsewhere. apply Hother. now left.
Qed.

Lemma wf_parse_trace (results : obj (obj W)) (trace : string) :
  wf_graph results -> wf_graph (parse_trace to_number results trace).
Proof.
  intros Hwf. unfold parse_trace.
  set (start := char_key trace 0). set (end_ := char_key trace 1).
  set (results1 := if has results start then results else set results start []).
  assert (Hwf1 : wf_graph results1).
  { subst results1. destruct (has results start); [exact Hwf |].
    intros k o Hin. apply In_set in Hin as [[= _ ->] | Hin].
    - constructor.
    - exact (Hwf k o Hin). }
  intros k o Hin. apply In_set in Hin as [[= _ ->] | Hin].
  - apply wf_set. now apply wf_neighbors.
  - exact (Hwf1 k o Hin).
Qed.

Lemma wf_parse (contents : string) : wf_graph (parse to_number contents).
Proof.
  unfold parse, parse_traces.
  assert (H : forall data results,
             wf_graph results -> wf_graph (fold_left (parse_trace to_number) data results)).
  { induction data as [| t data IH]; intros results Hwf; simpl; [exact Hwf |].
    apply IH. now apply wf_parse_trace. }
  apply H. intros k o [].
Qed.

End ParseFacts.

(** C6 fails: a text whose second record has no number and whose third has
    no second node is parsed without complaint; the records are stored. *)
Lemma parse_stores_malformed_traces :
  parse to_number "AB5,CDx,E"
  = [ ("A", [("B", Num 5)]);
      ("C", [("D", NonInteger "x")]);
      ("E", [("undefined", Num 0)]) ].
Proof. reflexivity. Qed.

(** C6, amended. For every text and whatever the unary [+] of the host
    answers, [parse] returns a graph in which each comma-separated record is
    stored: unless a later record has the same first two characters, its
    first character maps its second one to the conversion of the rest; a
    missing character reads as the name [undefined]. *)
Theorem parse_stores_every_trace
        (W : Type) (to_number : string -> W) (contents : string)
        (before : list string) (trace : string) (later : list string) :
  split "," contents = before ++ trace :: later ->
  (forall t, In t later ->
             char_key trace 0 <> char_key t 0 \/ char_key trace 1 <> char_key t 1) ->
  get (neighbors (parse to_number contents) (char_key trace 0)) (char_key trace 1)
  = Some (to_number (substr 2 trace)).
Proof.
  intros Hsplit Hlast. unfold parse, parse_traces.
  rewrite Hsplit, fold_left_app. simpl.
  rewrite (parse_traces_keep W to_number later _ _ _ Hlast).
  apply parse_trace_here.
Qed.

Lemma parse_stores_every_trace_witness :
  split "," "AB5,ABx,A" = ["AB5"] ++ "ABx" :: ["A"]
  /\ get (neighbors (parse to_number "AB5,ABx,A") "A") "B" = Some (NonInteger "x").
Proof.
  split; [reflexivity |].
  apply (parse_stores_every_trace number to_number "AB5,ABx,A" ["AB5"] "ABx" ["A"]).
  - reflexivity.
  - intros t [<- | []]. right. discriminate.
Defined.

(** * Further properties of getLatency *)

Lemma consecutive_app (p : list key) (a : key) (q : list key) :
  consecutive (p ++ a :: q) = consecutive (p ++ [a]) ++ consecutive (a :: q).
Proof.
  induction p as [| c p IH].
  - reflexivity.
  - change ((c :: p) ++ a :: q) with (c :: (p ++ a :: q)).
    change ((c :: p) ++ [a]) with (c :: (p ++ [a])).
    destruct p as [| d p].
    + reflexivity.
    + change (consecutive (c :: (d :: p) ++ a :: q))
        with ((c, d) :: consecutive ((d :: p) ++ a :: q)).
      rewrite IH. reflexivity.
Qed.

Lemma walk_cases (g : Graph) (rest : list key) :
  forall a result,
    (Forall (is_edge g) (consecutive (a :: rest))
     /\ walk g a rest result = VNum (result + path_weight g (a :: rest)))
    \/ (~ Forall (is_edge g) (consecutive (a :: rest))
        /\ walk g a rest result = NO_SUCH_TRACE).
Proof.
  induction rest as [| b rest IH]; intros a result.
  - left. split; [constructor |]. now apply walk_valid.
  - change (consecutive (a :: b :: rest)) with ((a, b) :: consecutive (b :: rest)).
    simpl walk.
    destruct (edge_weight g a b) as [w |] eqn:Hw.
    + destruct (IH b (result + w)) as [[Hvalid Hwalk] | [Hgap Hwalk]].
      * left.
        assert (Hall : Forall (is_edge g) ((a, b) :: consecutive (b :: rest))).
        { constructor; [| exact Hvalid]. unfold is_edge. simpl. congruence. }
        split; [exact Hall |].
        rewrite <- (walk_valid g (b :: rest) a result Hall). simpl. now rewrite Hw.
      * right. split; [| exact Hwalk].
        intros Hall. inversion Hall; subst. contradiction.
    + right. split; [| reflexivity].
      intros Hall. inversion Hall as [| e l Hedge _]; subst.
      unfold is_edge in Hedge. simpl in Hedge. congruence.
Qed.

Lemma getLatency_cases (g : Graph) (p : list key) :
  (Forall (is_edge g) (consecutive p) /\ getLatency g p = VNum (path_weight g p))
  \/ (~ Forall (is_edge g) (consecutive p) /\ getLatency g p = NO_SUCH_TRACE).
Proof.
  destruct p as [| a rest].
  - left. split; [constructor | reflexivity].
  - rewrite getLatency_cons. exact (walk_cases g rest a 0).
Qed.





Lemma path_weight_nonneg (g : Graph) (p : list key) :
  nonneg_graph g -> Forall (is_edge g) (consecutive p) -> 0 <= path_weight g p.
Proof.
  intros Hpos. unfold path_weight.
  induction (consecutive p) as [| [a b] l IH]; intros Hvalid; simpl; [lia |].
  inversion Hvalid as [| e l' Hedge Hrest]; subst.
  specialize (IH Hrest). unfold weight at 1. simpl.
  destruct (edge_weight g a b) as [w |] eqn:Hw; [| lia].
  pose proof (Hpos a b w Hw). lia.
Qed.

(** X3. On a graph without negative latencies, a path that has a latency
    has a non-negative one, and none of its prefixes has a larger one. *)
Theorem getLatency_prefix_not_larger (g : Graph) (p q : list key) (x y : Z) :
  nonneg_graph g ->
  getLatency g p = VNum x ->
  getLatency g (p ++ q) = VNum y ->
  0 <= x <= y.
Proof.
  intros Hpos Hp Hpq.
  destruct (getLatency_cases g p) as [[Hvp Hnp] | [_ Hnp]];
    [| rewrite Hnp in Hp; discriminate].
  destruct (getLatency_cases g (p ++ q)) as [[Hvw Hnw] | [_ Hnw]];
    [| rewrite Hnw in Hpq; discriminate].
  rewrite Hnp in Hp. rewrite Hnw in Hpq.
  injection Hp as <-. injection Hpq as <-.
  split; [now apply path_weight_nonneg |].
  destruct q as [| b q]; [rewrite app_nil_r; lia |].
  destruct p as [| c p0].
  - apply (path_weight_nonneg g _ Hpos Hvw).
  - destruct (@exists_last _ (c :: p0)) as [p' [a Hlast]]; [discriminate |].
    rewrite Hlast in *. rewrite <- app_assoc in *. simpl in *.
    rewrite consecutive_app in Hvw. apply Forall_app in Hvw as [_ Hvq].
    unfold path_weight at 2. rewrite consecutive_app, map_app, sum_app.
    pose proof (path_weight_nonneg g (a :: b :: q) Hpos Hvq) as H.
    unfold path_weight in *. lia.
Qed.

Lemma nonneg_graphb_sound (g : Graph) : nonneg_graphb g = true -> nonneg_graph g.
Proof.
  unfold nonneg_graphb, nonneg_graph, edge_weight, neighbors.
  intros H a b w Hw. rewrite forallb_forall in H.
  destruct (get g a) as [o |] eqn:Ha; [| discriminate].
  specialize (H (a, o) (get_In g a o Ha)). simpl in H.
  rewrite forallb_forall in H.
  specialize (H (b, w) (get_In o b w Hw)). simpl in H. lia.
Qed.

Lemma getLatency_prefix_not_larger_witness :
  nonneg_graph graph
  /\ getLatency graph ["A"; "B"] = VNum 5
  /\ getLatency graph (["A"; "B"] ++ ["C"]) = VNum 9
  /\ 0 <= 5 <= 9.
Proof.
  assert (H : nonneg_graph graph) by (apply nonneg_graphb_sound; reflexivity).
  split; [exact H |]. split; [reflexivity |]. split; [reflexivity |].
  exact (getLatency_prefix_not_larger graph ["A"; "B"] ["C"] 5 9 H eq_refl eq_refl).
Defined.

(** * Further properties of recurse and find *)

Lemma strict_eq_INCLUDE (status : value) :
  strict_eq status INCLUDE = true -> status = INCLUDE.
Proof.
  destruct status; simpl; try discriminate.
  intros H. apply Z.eqb_eq in H. now subst.
Qed.

Lemma strict_eq_STOP (status : value) :
  strict_eq status STOP = true -> status = STOP.
Proof.
  destruct status; simpl; try discriminate.
  intros H. apply Z.eqb_eq in H. now subst.
Qed.

(** ** Results are only appended *)

Section Frame.

Variable St : Type.
Variable predicate : predicate_t St.

Lemma recurse_entries_frame (rec : recurse_t St) (cur : key) (p : list key) (w : Z) :
  (forall k p' w' rs0 rs st,
      rec k p' w' (rs0 ++ rs) predicate st = prepend rs0 (rec k p' w' rs predicate st)) ->
  forall entries rs0 rs st,
    recurse_entries rec cur p w entries (rs0 ++ rs) predicate st
    = prepend rs0 (recurse_entries rec cur p w entries rs predicate st).
Proof.
  intros Hrec.
  induction entries as [| [nxt m] rest IH]; intros rs0 rs st; simpl; [reflexivity |].
  destruct (predicate st (mkResult (p ++ [nxt]) (w + m)) cur nxt) as [status st1].
  destruct (strict_eq status STOP); [apply IH |].
  destruct (strict_eq status INCLUDE).
  - rewrite <- app_assoc, Hrec.
    destruct (rec nxt (p ++ [nxt]) (w + m) _ predicate st1) as [[rs2 st2] |]; simpl;
      [apply IH | reflexivity].
  - rewrite Hrec.
    destruct (rec nxt (p ++ [nxt]) (w + m) rs predicate st1) as [[rs2 st2] |]; simpl;
      [apply IH | reflexivity].
Qed.

Lemma recurse_frame (g : Graph) (depth : nat) :
  forall cur p w rs0 rs st,
    recurse depth g cur p w (rs0 ++ rs) predicate st
    = prepend rs0 (recurse depth g cur p w rs predicate st).
Proof.
  induction depth as [| depth IH]; intros cur p w rs0 rs st; simpl; [reflexivity |].
  apply recurse_entries_frame. exact IH.
Qed.

Lemma recurse_entries_extends (g : Graph) (depth : nat) cur p w entries rs st rs' st' :
  recurse_entries (recurse depth g) cur p w entries rs predicate st = Some (rs', st') ->
  exists added, rs' = rs ++ added.
Proof.
  rewrite <- (app_nil_r rs) at 1.
  rewrite (recurse_entries_frame (recurse depth g) cur p w (recurse_frame g depth)).
  destruct (recurse_entries _ cur p w entries [] predicate st) as [[added st2] |]; simpl;
    [| discriminate].
  intros [= <- _]. now exists added.
Qed.

Lemma recurse_extends (g : Graph) (depth : nat) cur p w rs st rs' st' :
  recurse depth g cur p w rs predicate st = Some (rs', st') ->
  exists added, rs' = rs ++ added.
Proof.
  rewrite <- (app_nil_r rs) at 1. rewrite recurse_frame.
  destruct (recurse depth g cur p w [] predicate st) as [[added st2] |]; simpl;
    [| discriminate].
  intros [= <- _]. now exists added.
Qed.

End Frame.

(** X4. [recurse] only pushes onto the array it is given: the results it
    started with stay in front, in place, and what it appends is what it would
    have collected from an empty array. *)
Theorem recurse_appends_to_results
        (St : Type) (predicate : predicate_t St) (depth : nat) (g : Graph)
        (startKey : key) (startPath : list key) (startLatency : Z)
        (results : list result) (st : St) :
  recurse depth g startKey startPath startLatency results predicate st
  = match recurse depth g startKey startPath startLatency [] predicate st with
    | Some (added, st') => Some (results ++ added, st')
    | None => None
    end.
Proof.
  rewrite <- (app_nil_r results) at 1.
  exact (recurse_frame St predicate g depth startKey startPath startLatency results [] st).
Qed.

(** ** A rule for invariants of the results and the variables of the predicate *)

Section Preservation.

Variable St : Type.
Variable predicate : predicate_t St.
Variable Inv : list result -> St -> Prop.

(** Every answer of the predicate keeps the invariant, with the candidate
    pushed when the answer is [INCLUDE]. *)
Hypothesis Inv_step :
  forall rs st r pre a b status st1,
    Inv rs st ->
    path r = pre ++ [a; b] ->
    predicate st r a b = (status, st1) ->
    Inv (if strict_eq status STOP then rs
         else if strict_eq status INCLUDE then rs ++ [r] else rs) st1.

Lemma recurse_entries_preserves (rec : recurse_t St) (cur : key) (pre : list key) (w : Z) :
  (forall k pre' w' rs st rs' st',
      rec k (pre' ++ [k]) w' rs predicate st = Some (rs', st') ->
      Inv rs st -> Inv rs' st') ->
  forall entries rs st rs' st',
    recurse_entries rec cur (pre ++ [cur]) w entries rs predicate st = Some (rs', st') ->
    Inv rs st -> Inv rs' st'.
Proof.
  intros Hrec.
  induction entries as [| [nxt m] rest IH]; intros rs st rs' st'; simpl.
  - intros [= <- <-]. trivial.
  - intros Hrun Hinv.
    pose proof (Inv_step rs st (mkResult ((pre ++ [cur]) ++ [nxt]) (w + m))
                         pre cur nxt) as Hstep.
    destruct (predicate st (mkResult ((pre ++ [cur]) ++ [nxt]) (w + m)) cur nxt)
      as [status st1].
    specialize (Hstep status st1 Hinv).
    simpl in Hstep. rewrite <- app_assoc in Hstep. specialize (Hstep eq_refl eq_refl).
    rewrite <- app_assoc in Hrun. simpl in Hrun.
    destruct (strict_eq status STOP).
    + exact (IH _ _ _ _ Hrun Hstep).
    + change (pre ++ [cur; nxt]) with (pre ++ [cur] ++ [nxt]) in Hrun.
      rewrite app_assoc in Hrun.
      match type of Hrun with
      | match rec ?k ?q ?x ?rs1 _ ?s1 with _ => _ end = _ =>
          destruct (rec k q x rs1 predicate s1) as [[rs2 st2] |] eqn:Hcall;
          [| discriminate]
      end.
      apply (IH _ _ _ _ Hrun).
      apply (Hrec _ _ _ _ _ _ _ Hcall).
      destruct (strict_eq status INCLUDE); rewrite <- ?app_assoc; exact Hstep.
Qed.

Lemma recurse_preserves (g : Graph) (depth : nat) :
  forall cur pre w rs st rs' st',
    recurse depth g cur (pre ++ [cur]) w rs predicate st = Some (rs', st') ->
    Inv rs st -> Inv rs' st'.
Proof.
  induction depth as [| depth IH]; intros cur pre w rs st rs' st'; simpl.
  - discriminate.
  - apply recurse_entries_preserves. exact IH.
Qed.

Lemma find_preserves (g : Graph) (depth : nat) (start : key) (st : St) rs' st' :
  find depth g start predicate st = Some (rs', st') ->
  Inv [] st -> Inv rs' st'.
Proof.
  unfold find. exact (recurse_preserves g depth start [] 0 [] st rs' st').
Qed.

End Preservation.

(** X5. Every result that [find] returns is a candidate for which the
    predicate answered [INCLUDE], called with the last two nodes of the
    candidate's path; so a result has at least two nodes. *)
Theorem find_returns_included_candidates
        (St : Type) (predicate : predicate_t St) (depth : nat) (g : Graph)
        (start : key) (st : St) (rs : list result) (st' : St) :
  find depth g start predicate st = Some (rs, st') ->
  Forall (fun r =>
            (exists st0 pre a b st1,
                path r = pre ++ [a; b] /\ predicate st0 r a b = (INCLUDE, st1))
            /\ (2 <= List.length (path r))%nat) rs.
Proof.
  intros Hfind.
  refine (find_preserves St predicate
            (fun rs _ => Forall (fun r => included predicate r
                                          /\ (2 <= List.length (path r))%nat) rs)
            _ g depth start st rs st' Hfind _); [| constructor].
  intros rs0 st0 r pre a b status st1 Hinv Hpath Hcall.
  destruct (strict_eq status STOP); [exact Hinv |].
  destruct (strict_eq status INCLUDE) eqn:Hinclude; [| exact Hinv].
  apply strict_eq_INCLUDE in Hinclude. subst status.
  apply Forall_app. split; [exact Hinv |].
  constructor; [| constructor]. split.
  - now exists st0, pre, a, b, st1.
  - rewrite Hpath, length_app. simpl. lia.
Qed.

Lemma find_returns_included_candidates_witness :
  Forall (fun r =>
            (exists st0 pre a b st1,
                path r = pre ++ [a; b] /\ predicate_max3 st0 r a b = (INCLUDE, st1))
            /\ (2 <= List.length (path r))%nat)
         [mkResult ["C"; "D"; "C"] 16; mkResult ["C"; "E"; "B"; "C"] 9].
Proof.
  apply (find_returns_included_candidates unit predicate_max3 4 graph "C" tt _ tt).
  reflexivity.
Defined.

(** ** Termination *)

Section Bounded.

Variable St : Type.
Variable predicate : predicate_t St.
Variable n : nat.
Hypothesis bounded : stops_beyond n predicate.

Lemma recurse_entries_bounded_returns (rec : recurse_t St) (cur : key) (p : list key) (w : Z) :
  ((List.length p < n)%nat ->
   forall k w' rs st, exists out, rec k (p ++ [k]) w' rs predicate st = Some out) ->
  forall entries rs st,
  exists out, recurse_entries rec cur p w entries rs predicate st = Some out.
Proof.
  intros Hrec.
  induction entries as [| [nxt m] rest IH]; intros rs st; simpl; [eauto |].
  pose proof (bounded st (mkResult (p ++ [nxt]) (w + m)) cur nxt) as Hstop.
  destruct (predicate st (mkResult (p ++ [nxt]) (w + m)) cur nxt) as [status st1].
  simpl in Hstop.
  destruct (strict_eq status STOP) eqn:Hs; [apply IH |].
  assert (Hlen : (List.length p < n)%nat).
  { destruct (Nat.lt_ge_cases (List.length p) n) as [H | H]; [exact H |].
    assert (Hlong : (n < List.length (p ++ [nxt]))%nat)
      by (rewrite length_app; simpl; lia).
    specialize (Hstop Hlong). congruence. }
  match goal with
  | |- context [rec nxt ?q ?x ?rs1 predicate st1] =>
      destruct (Hrec Hlen nxt x rs1 st1) as [[rs2 st2] Hcall]; rewrite Hcall
  end.
  apply IH.
Qed.

Lemma recurse_bounded_returns (g : Graph) (depth : nat) :
  forall cur p w rs st,
    (1 <= depth)%nat ->
    (n < depth + List.length p)%nat ->
    exists out, recurse depth g cur p w rs predicate st = Some out.
Proof.
  induction depth as [| depth IH]; intros cur p w rs st Hpos Hdepth; [lia |].
  simpl. apply recurse_entries_bounded_returns.
  intros Hlen k w' rs0 st0. apply IH; [lia |].
  rewrite length_app. simpl. lia.
Qed.

End Bounded.

(** X6. When the predicate answers [STOP] for every candidate of more than
    [n] nodes, [find] returns, whatever the graph and its cycles, within a
    recursion depth of [n]; and no path it returns has more than [n] nodes. *)
Theorem find_returns_when_predicate_bounds_hops
        (St : Type) (predicate : predicate_t St) (n : nat) (g : Graph)
        (start : key) (st : St) (depth : nat) :
  stops_beyond n predicate ->
  (1 <= n)%nat ->
  (n <= depth)%nat ->
  exists rs st',
    find depth g start predicate st = Some (rs, st')
    /\ Forall (fun r => (List.length (path r) <= n)%nat) rs.
Proof.
  intros Hbounded Hn Hdepth.
  destruct (recurse_bounded_returns St predicate n Hbounded g depth start [start] 0 [] st)
    as [[rs st'] Hfind]; [lia | simpl; lia |].
  exists rs, st'. split; [exact Hfind |].
  refine (find_preserves St predicate
            (fun rs _ => Forall (fun r => (List.length (path r) <= n)%nat) rs)
            _ g depth start st rs st' Hfind _); [| constructor].
  intros rs0 st0 r pre a b status st1 Hinv Hpath Hcall.
  destruct (strict_eq status STOP) eqn:Hs; [exact Hinv |].
  destruct (strict_eq status INCLUDE); [| exact Hinv].
  apply Forall_app. split; [exact Hinv |].
  constructor; [| constructor].
  destruct (Nat.lt_ge_cases n (List.length (path r))) as [H | H]; [| exact H].
  pose proof (Hbounded st0 r a b H) as Hstop. rewrite Hcall in Hstop. simpl in Hstop.
  congruence.
Qed.

Lemma predicate_max3_bounded : stops_beyond 4 predicate_max3.
Proof.
  intros st r a b Hlen. unfold predicate_max3.
  destruct (4 <? Z.of_nat (List.length (path r))) eqn:H; [reflexivity |].
  apply Z.ltb_ge in H. lia.
Qed.

Lemma find_returns_when_predicate_bounds_hops_witness :
  stops_beyond 4 predicate_max3
  /\ exists rs st',
      find 4 graph "C" predicate_max3 tt = Some (rs, st')
      /\ Forall (fun r => (List.length (path r) <= 4)%nat) rs.
Proof.
  split; [exact predicate_max3_bounded |].
  apply (find_returns_when_predicate_bounds_hops unit predicate_max3 4 graph "C" tt 4
           predicate_max3_bounded); lia.
Defined.

(** ** Unbounded recursion *)

(** X7. When the predicate never answers [STOP] and the start node lies in a
    set of nodes each of which has a first outgoing edge into the set (a
    cycle, for one), [find] returns at no recursion depth. *)
Theorem find_never_returns_on_cycle
        (St : Type) (predicate : predicate_t St) (g : Graph) (live : key -> Prop)
        (start : key) :
  never_stops predicate ->
  (forall k, live k -> exists e w rest, neighbors g k = (e, w) :: rest /\ live e) ->
  live start ->
  forall depth st, find depth g start predicate st = None.
Proof.
  intros Hnever Hlive Hstart depth st. unfold find.
  generalize (@nil result) as rs. generalize 0 as w. generalize [start] as p.
  revert start Hstart st.
  induction depth as [| depth IH]; intros k Hk st p w rs; simpl; [reflexivity |].
  destruct (Hlive k Hk) as (e & m & rest & -> & He). simpl.
  pose proof (Hnever st (mkResult (p ++ [e]) (w + m)) k e) as Hs.
  destruct (predicate st (mkResult (p ++ [e]) (w + m)) k e) as [status st1].
  simpl in Hs. rewrite Hs. now rewrite IH.
Qed.

Lemma find_never_returns_on_cycle_witness :
  never_stops always_continue
  /\ find 50 graph "C" always_continue tt = None.
Proof.
  assert (Hnever : never_stops always_continue) by (intros st r a b; reflexivity).
  split; [exact Hnever |].
  apply (find_never_returns_on_cycle unit always_continue graph
           (fun k => k = "C" \/ k = "D") "C" Hnever).
  - intros k [-> | ->].
    + exists "D", 8, [("E", 2)]. split; [reflexivity | now right].
    + exists "C", 8, [("E", 6)]. split; [reflexivity | now left].
  - now left.
Defined.

(** ** No path twice *)

Section Distinct.

Variable St : Type.
Variable predicate : predicate_t St.
Variable g : Graph.
Hypothesis g_wf : wf_graph g.

Lemma below_extends (q : list key) (e : key) (r : result) :
  below (q ++ [e]) r -> extends_path (q ++ [e]) r.
Proof. intros (x & ext & H). now exists (x :: ext). Qed.

Lemma extends_other_entry (q : list key) (e e' : key) (r : result) :
  extends_path (q ++ [e]) r -> extends_path (q ++ [e']) r -> e = e'.
Proof.
  intros [x Hx] [y Hy]. rewrite Hx, <- !app_assoc in Hy.
  apply app_inv_head in Hy. now injection Hy.
Qed.

Lemma recurse_entries_distinct (depth : nat) (cur : key) (q : list key) (w : Z) :
  (forall k q' w' rs st rs' st',
      recurse depth g k q' w' rs predicate st = Some (rs', st') ->
      NoDup (map path rs) ->
      (forall r, In r rs -> ~ below q' r) ->
      NoDup (map path rs') /\ (forall r, In r rs' -> In r rs \/ below q' r)) ->
  forall entries rs st rs' st',
    NoDup (keys entries) ->
    recurse_entries (recurse depth g) cur q w entries rs predicate st = Some (rs', st') ->
    NoDup (map path rs) ->
    (forall r e, In r rs -> In e (keys entries) -> ~ extends_path (q ++ [e]) r) ->
    NoDup (map path rs')
    /\ (forall r, In r rs' ->
                  In r rs \/ exists e, In e (keys entries) /\ extends_path (q ++ [e]) r).
Proof.
  intros Hrec.
  induction entries as [| [e m] rest IH]; intros rs st rs' st' Hkeys; simpl.
  - intros [= <- <-] Hnodup _. split; [exact Hnodup | now left].
  - unfold keys in Hkeys. simpl in Hkeys.
    inversion Hkeys as [| x l Hfresh Hkeys']; subst.
    intros Hrun Hnodup Hfar.
    assert (Hfar_rest : forall r e', In r rs -> In e' (keys rest) ->
                                     ~ extends_path (q ++ [e']) r)
      by (intros r e' Hr He'; apply Hfar; [exact Hr | now right]).
    destruct (predicate st (mkResult (q ++ [e]) (w + m)) cur e) as [status st1].
    destruct (strict_eq status STOP).
    + destruct (IH _ _ _ _ Hkeys' Hrun Hnodup Hfar_rest) as [Hn Hin].
      split; [exact Hn |].
      intros r Hr. destruct (Hin r Hr) as [H | (e' & He' & H)]; [now left |].
      right. exists e'. split; [now right | exact H].
    + set (cand := mkResult (q ++ [e]) (w + m)) in *.
      set (rs1 := if strict_eq status INCLUDE then rs ++ [cand] else rs) in *.
      assert (Hin1 : forall r, In r rs1 -> In r rs \/ r = cand).
      { intros r Hr. subst rs1. destruct (strict_eq status INCLUDE); [| now left].
        apply in_app_or in Hr as [Hr | [<- | []]]; [now left | now right]. }
      assert (Hnodup1 : NoDup (map path rs1)).
      { subst rs1. destruct (strict_eq status INCLUDE); [| exact Hnodup].
        rewrite map_app. apply NoDup_app; [exact Hnodup | repeat constructor; intros [] |].
        intros x Hx [<- | []].
        apply in_map_iff in Hx as (r & Hpath & Hr).
        apply (Hfar r e Hr); [now left |].
        exists []. now rewrite app_nil_r. }
      assert (Hfar1 : forall r, In r rs1 -> ~ below (q ++ [e]) r).
      { intros r Hr Hbelow. destruct (Hin1 r Hr) as [Hrs | ->].
        - apply (Hfar r e Hrs); [now left | now apply below_extends].
        - destruct Hbelow as (x & ext & Hpath). simpl in Hpath.
          apply (f_equal (@List.length key)) in Hpath.
          rewrite !length_app in Hpath. simpl in Hpath. lia. }
      destruct (recurse depth g e (q ++ [e]) (w + m) rs1 predicate st1)
        as [[rs2 st2] |] eqn:Hcall; [| discriminate].
      destruct (Hrec _ _ _ _ _ _ _ Hcall Hnodup1 Hfar1) as [Hnodup2 Hin2].
      assert (Hown : forall r, In r rs2 -> In r rs \/ extends_path (q ++ [e]) r).
      { intros r Hr. destruct (Hin2 r Hr) as [H | H].
        - destruct (Hin1 r H) as [Hrs | ->]; [now left |].
          right. exists []. simpl. now rewrite app_nil_r.
        - right. now apply below_extends. }
      assert (Hfar2 : forall r e', In r rs2 -> In e' (keys rest) ->
                                   ~ extends_path (q ++ [e']) r).
      { intros r e' Hr He' Hext. destruct (Hown r Hr) as [Hrs | Hmine].
        - exact (Hfar_rest r e' Hrs He' Hext).
        - apply Hfresh. rewrite (extends_other_entry q e e' r Hmine Hext). exact He'. }
      destruct (IH _ _ _ _ Hkeys' Hrun Hnodup2 Hfar2) as [Hn Hin].
      split; [exact Hn |].
      intros r Hr. destruct (Hin r Hr) as [H | (e' & He' & H)].
      * destruct (Hown r H) as [Hrs | Hmine]; [now left |].
        right. exists e. split; [now left | exact Hmine].
      * right. exists e'. split; [now right | exact H].
Qed.

Lemma recurse_distinct (depth : nat) :
  forall k q w rs st rs' st',
    recurse depth g k q w rs predicate st = Some (rs', st') ->
    NoDup (map path rs) ->
    (forall r, In r rs -> ~ below q r) ->
    NoDup (map path rs') /\ (forall r, In r rs' -> In r rs \/ below q r).
Proof.
  induction depth as [| depth IH]; intros k q w rs st rs' st'; simpl; [discriminate |].
  intros Hrun Hnodup Hfar.
  destruct (recurse_entries_distinct depth k q w IH (neighbors g k) rs st rs' st'
              (wf_neighbors g k g_wf) Hrun Hnodup) as [Hn Hin].
  - intros r e Hr _ (ext & Hpath). apply (Hfar r Hr).
    rewrite <- app_assoc in Hpath. now exists e, ext.
  - split; [exact Hn |].
    intros r Hr. destruct (Hin r Hr) as [H | (e & _ & ext & Hpath)]; [now left |].
    right. rewrite <- app_assoc in Hpath. now exists e, ext.
Qed.

End Distinct.

(** X8. [find] returns no path twice: the paths of its results are pairwise
    different. *)
Theorem find_returns_distinct_paths
        (St : Type) (predicate : predicate_t St) (g : Graph) (depth : nat)
        (start : key) (st : St) (rs : list result) (st' : St) :
  wf_graph g ->
  find depth g start predicate st = Some (rs, st') ->
  NoDup (map path rs).
Proof.
  intros Hwf Hfind.
  destruct (recurse_distinct St predicate g Hwf depth start [start] 0 [] st rs st' Hfind)
    as [H _]; [constructor | intros r [] | exact H].
Qed.

Lemma find_returns_distinct_paths_witness :
  wf_graph graph
  /\ NoDup (map path [mkResult ["C"; "D"; "C"] 16; mkResult ["C"; "E"; "B"; "C"] 9]).
Proof.
  assert (Hwf : wf_graph graph) by (apply wf_graphb_sound; reflexivity).
  split; [exact Hwf |].
  apply (find_returns_distinct_paths unit predicate_max3 graph 4 "C" tt _ tt Hwf).
  reflexivity.
Defined.

(** ** Every admitted path is returned *)

Section Complete.

Variable St : Type.
Variable predicate : predicate_t St.
Variable f : result -> key -> key -> value.
Variable g : Graph.
Hypothesis predicate_pure : forall st r a b, predicate st r a b = (f r a b, st).

Lemma recurse_entries_complete (depth : nat) (cur : key) (P : list key) (W : Z) :
  (forall k P' W' ext Wf rs st rs' st',
      admits f g k P' W' ext Wf ->
      recurse depth g k P' W' rs predicate st = Some (rs', st') ->
      In (mkResult (P' ++ ext) Wf) rs') ->
  forall entries rs st rs' st' b w ext Wf,
    In (b, w) entries ->
    (ext = [] /\ f (mkResult (P ++ [b]) (W + w)) cur b = INCLUDE /\ Wf = W + w)
    \/ (strict_eq (f (mkResult (P ++ [b]) (W + w)) cur b) STOP = false
        /\ admits f g b (P ++ [b]) (W + w) ext Wf) ->
    recurse_entries (recurse depth g) cur P W entries rs predicate st = Some (rs', st') ->
    In (mkResult (P ++ b :: ext) Wf) rs'.
Proof.
  intros Hrec.
  induction entries as [| [e m] rest IH]; intros rs st rs' st' b w ext Wf Hin Hadm;
    [contradiction |].
  simpl. rewrite predicate_pure.
  destruct (strict_eq (f (mkResult (P ++ [e]) (W + m)) cur e) STOP) eqn:Hstop.
  - destruct Hin as [[= -> ->] | Hin]; [| exact (IH _ _ _ _ b w ext Wf Hin Hadm)].
    destruct Hadm as [(_ & Hf & _) | [Hf _]]; [| congruence].
    rewrite Hf in Hstop. discriminate.
  - destruct (recurse depth g e (P ++ [e]) (W + m) _ predicate st)
      as [[rs2 st2] |] eqn:Hcall; [| discriminate].
    intros Hrun.
    destruct Hin as [[= -> ->] | Hin]; [| now apply (IH _ _ _ _ b w ext Wf Hin Hadm Hrun)].
    destruct (recurse_entries_extends St predicate g depth _ _ _ _ _ _ _ _ Hrun)
      as [added2 ->].
    apply in_or_app. left.
    destruct Hadm as [(-> & Hf & ->) | [_ Hadm]].
    + rewrite Hf in Hcall. simpl in Hcall.
      destruct (recurse_extends St predicate g depth _ _ _ _ _ _ _ Hcall) as [added ->].
      apply in_or_app. left. apply in_or_app. right. now left.
    + pose proof (Hrec _ _ _ _ _ _ _ _ _ Hadm Hcall) as H.
      now rewrite <- app_assoc in H.
Qed.

Lemma recurse_complete (depth : nat) :
  forall k P W ext Wf rs st rs' st',
    admits f g k P W ext Wf ->
    recurse depth g k P W rs predicate st = Some (rs', st') ->
    In (mkResult (P ++ ext) Wf) rs'.
Proof.
  induction depth as [| depth IH]; intros k P W ext Wf rs st rs' st' Hadm; simpl;
    [discriminate |].
  inversion Hadm as [cur P0 W0 b w Hedge Hf | cur P0 W0 b w ext' Wf' Hedge Hf Hrest]; subst.
  - apply (recurse_entries_complete depth k P W IH _ _ _ _ _ b w [] (W + w)).
    + now apply get_In.
    + left. auto.
  - apply (recurse_entries_complete depth k P W IH _ _ _ _ _ b w ext' Wf).
    + now apply get_In.
    + right. auto.
Qed.

End Complete.



(** ** The predicates of the tests, on every graph *)

Lemma last_snoc_pair (pre : list key) (a b : key) (d : key) :
  last (pre ++ [a; b]) d = b.
Proof.
  change (pre ++ [a; b]) with (pre ++ [a] ++ [b]). rewrite app_assoc. apply last_last.
Qed.

Lemma path_weight_cons (g : Graph) (a b : key) (w : Z) (rest : list key) :
  edge_weight g a b = Some w ->
  path_weight g (a :: b :: rest) = w + path_weight g (b :: rest).
Proof.
  intros Hw. unfold path_weight.
  change (consecutive (a :: b :: rest)) with ((a, b) :: consecutive (b :: rest)).
  simpl. unfold weight at 1. simpl. now rewrite Hw.
Qed.

Section Hops.

Variable N : nat.
Variable ok : nat -> bool.
Variable predicate : predicate_t unit.
Variable g : Graph.
Hypothesis predicate_hops :
  forall st r a b, predicate st r a b = (status_hops N ok r a b, st).
Hypothesis g_wf : wf_graph g.

Lemma hops_bounded : stops_beyond N predicate.
Proof.
  intros st r a b Hlen. rewrite predicate_hops. unfold status_hops. simpl.
  apply Nat.ltb_lt in Hlen. now rewrite Hlen.
Qed.

Lemma hops_admits (ext : list key) :
  forall cur P W,
    ext <> [] ->
    Forall (is_edge g) (consecutive (cur :: ext)) ->
    (List.length P + List.length ext <= N)%nat ->
    ok (List.length P + List.length ext)%nat = true ->
    last ext "" = "C" ->
    admits (status_hops N ok) g cur P W ext (W + path_weight g (cur :: ext)).
Proof.
  induction ext as [| b ext IH]; intros cur P W Hne Hvalid Hlen Hok Hlast;
    [contradiction |].
  change (consecutive (cur :: b :: ext)) with ((cur, b) :: consecutive (b :: ext)) in Hvalid.
  inversion Hvalid as [| e l Hedge Hrest]; subst.
  unfold is_edge in Hedge. simpl in Hedge.
  destruct (edge_weight g cur b) as [w |] eqn:Hw; [| congruence].
  rewrite (path_weight_cons g cur b w ext Hw).
  destruct ext as [| c ext]; cbn [List.length] in Hlen, Hok.
  - simpl in Hlast. subst b.
    change (path_weight g ["C"]) with 0. rewrite Z.add_0_r.
    apply (admits_include (status_hops N ok) g cur P W "C" w); [exact Hw |].
    unfold status_hops. simpl. rewrite length_app. simpl.
    replace (N <? List.length P + 1)%nat with false
      by (symmetry; apply Nat.ltb_ge; lia).
    now rewrite Hok.
  - apply admits_through with (w := w); [exact Hw | |].
    + unfold status_hops. simpl. rewrite length_app. simpl.
      replace (N <? List.length P + 1)%nat with false
        by (symmetry; apply Nat.ltb_ge; lia).
      destruct (ok _ && _); reflexivity.
    + rewrite Z.add_assoc. apply IH; try assumption; try discriminate.
      * rewrite length_app. simpl in *. lia.
      * rewrite length_app. simpl in *.
        now replace (List.length P + 1 + S (List.length ext))%nat
          with (List.length P + S (S (List.length ext)))%nat by lia.
Qed.

Lemma hops_exact (start : key) (depth : nat) :
  (1 <= N)%nat ->
  (N <= depth)%nat ->
  exists rs,
    find depth g start predicate tt = Some (rs, tt)
    /\ forall r, In r rs <-> hops_to_C N ok g start r.
Proof.
  intros HN Hdepth.
  destruct (recurse_bounded_returns unit predicate N hops_bounded g depth start
              [start] 0 [] tt) as [[rs []] Hfind]; [lia | simpl; lia |].
  exists rs. split; [exact Hfind |].
  assert (Hgood : Forall (produced_from g start) rs).
  { refine (recurse_good unit predicate g start g_wf depth start [start] 0 [] tt rs tt
              _ _ Hfind); [| constructor].
    split; [now exists [] |]. repeat split. constructor. }
  assert (Hincl : Forall (fun r => exists pre a b,
                              path r = pre ++ [a; b]
                              /\ status_hops N ok r a b = INCLUDE) rs).
  { refine (find_preserves unit predicate
              (fun rs _ => Forall (fun r => exists pre a b,
                                       path r = pre ++ [a; b]
                                       /\ status_hops N ok r a b = INCLUDE) rs)
              _ g depth start tt rs tt Hfind _); [| constructor].
    intros rs0 st0 r pre a b status st1 Hinv Hpath Hcall.
    rewrite predicate_hops in Hcall. injection Hcall as <- _.
    destruct (strict_eq _ STOP); [exact Hinv |].
    destruct (strict_eq _ INCLUDE) eqn:Hi; [| exact Hinv].
    apply Forall_app. split; [exact Hinv |].
    constructor; [| constructor]. exists pre, a, b.
    split; [exact Hpath | now apply strict_eq_INCLUDE]. }
  rewrite Forall_forall in Hgood, Hincl.
  intros r. split.
  - intros Hr.
    destruct (Hgood r Hr) as (Hhd & Hvalid & Hlat & _).
    destruct (Hincl r Hr) as (pre & a & b & Hpath & Hstatus).
    unfold status_hops in Hstatus.
    destruct (N <? List.length (path r))%nat eqn:Hlen; [discriminate |].
    destruct (ok (List.length (path r))) eqn:Hok; [| discriminate].
    destruct (String.eqb_spec b "C") as [-> | _]; [| discriminate].
    apply Nat.ltb_ge in Hlen.
    assert (Hp : exists ext, path r = start :: ext).
    { destruct (path r) as [| x ext]; [discriminate |].
      injection Hhd as ->. now exists ext. }
    destruct Hp as [ext Hp]. exists ext.
    split; [exact Hp |].
    split.
    { intros ->. rewrite Hp in Hpath. apply (f_equal (@List.length key)) in Hpath.
      rewrite length_app in Hpath. simpl in Hpath. lia. }
    split; [exact Hlen |]. split; [exact Hok |].
    split; [| split; [exact Hvalid | exact Hlat]].
    rewrite Hp in Hpath.
    destruct pre as [| y pre]; simpl in Hpath; injection Hpath as _ ->.
    + reflexivity.
    + apply last_snoc_pair.
  - intros (ext & Hpath & Hne & Hlen & Hok & Hlast & Hvalid & Hlat).
    destruct r as [p w]. simpl in *. subst p.
    pose proof (hops_admits ext start [start] 0 Hne Hvalid) as Hadm.
    simpl in Hlen, Hok.
    specialize (Hadm Hlen Hok Hlast).
    rewrite Hlat.
    exact (recurse_complete unit predicate (status_hops N ok) g predicate_hops depth
             start [start] 0 ext _ [] tt rs tt Hadm Hfind).
Qed.

End Hops.

Lemma predicate_max3_hops (st : unit) (r : result) (a b : key) :
  predicate_max3 st r a b = (status_hops 4 (fun _ => true) r a b, st).
Proof.
  unfold predicate_max3, status_hops.
  destruct (4 <? Z.of_nat (List.length (path r))) eqn:Hz.
  - apply Z.ltb_lt in Hz.
    replace (4 <? List.length (path r))%nat with true
      by (symmetry; apply Nat.ltb_lt; lia).
    reflexivity.
  - apply Z.ltb_ge in Hz.
    replace (4 <? List.length (path r))%nat with false
      by (symmetry; apply Nat.ltb_ge; lia).
    simpl. destruct (String.eqb b "C"); reflexivity.
Qed.

Lemma predicate_exactly4_hops (st : unit) (r : result) (a b : key) :
  predicate_exactly4 st r a b = (status_hops 5 (fun n => Nat.eqb n 5) r a b, st).
Proof.
  unfold predicate_exactly4, status_hops.
  destruct (5 <? Z.of_nat (List.length (path r))) eqn:Hz.
  - apply Z.ltb_lt in Hz.
    replace (5 <? List.length (path r))%nat with true
      by (symmetry; apply Nat.ltb_lt; lia).
    reflexivity.
  - apply Z.ltb_ge in Hz.
    replace (5 <? List.length (path r))%nat with false
      by (symmetry; apply Nat.ltb_ge; lia).
    replace (Z.of_nat (List.length (path r)) =? 5)
      with (Nat.eqb (List.length (path r)) 5);
      [destruct (Nat.eqb _ 5 && String.eqb b "C"); reflexivity |].
    destruct (Nat.eqb_spec (List.length (path r)) 5) as [-> | Hne]; [reflexivity |].
    symmetry. apply Z.eqb_neq. lia.
Qed.





Lemma predicate_below30_pure (st : unit) (r : result) (a b : key) :
  predicate_below30 st r a b = (status_below30 r a b, st).
Proof.
  destruct st. unfold status_below30, predicate_below30.
  destruct (30 <=? latency r); [reflexivity |].
  destruct (String.eqb b "C"); reflexivity.
Qed.

Lemma below30_admits (g : Graph) (ext : list key) :
  nonneg_graph g ->
  forall cur P W,
    ext <> [] ->
    Forall (is_edge g) (consecutive (cur :: ext)) ->
    last ext "" = "C" ->
    W + path_weight g (cur :: ext) < 30 ->
    admits status_below30 g cur P W ext (W + path_weight g (cur :: ext)).
Proof.
  intros Hpos.
  induction ext as [| b ext IH]; intros cur P W Hne Hvalid Hlast Hlow; [contradiction |].
  change (consecutive (cur :: b :: ext)) with ((cur, b) :: consecutive (b :: ext)) in Hvalid.
  inversion Hvalid as [| e l Hedge Hrest]; subst.
  unfold is_edge in Hedge. simpl in Hedge.
  destruct (edge_weight g cur b) as [w |] eqn:Hw; [| congruence].
  rewrite (path_weight_cons g cur b w ext Hw) in *.
  pose proof (path_weight_nonneg g (b :: ext) Hpos Hrest) as Hrestpos.
  assert (Hcand : (30 <=? W + w) = false) by (apply Z.leb_gt; lia).
  destruct ext as [| c ext].
  - simpl in Hlast. subst b.
    change (path_weight g ["C"]) with 0. rewrite Z.add_0_r.
    apply (admits_include status_below30 g cur P W "C" w); [exact Hw |].
    unfold status_below30, predicate_below30. simpl. now rewrite Hcand.
  - apply admits_through with (w := w); [exact Hw | |].
    + unfold status_below30, predicate_below30. simpl. rewrite Hcand.
      destruct (String.eqb b "C"); reflexivity.
    + rewrite Z.add_assoc. apply IH; try assumption; try discriminate. lia.
Qed.

(** X12. On a graph without negative latencies, what [find] returns with the
    predicate of the below-30 test is exactly the set of paths that lead from
    the start node along edges to C with a latency below 30, each with its
    latency. *)
Theorem find_below30_returns_exactly_the_cheap_paths
        (g : Graph) (start : key) (depth : nat) (rs : list result) (st' : unit) :
  wf_graph g ->
  nonneg_graph g ->
  find depth g start predicate_below30 tt = Some (rs, st') ->
  forall r,
    In r rs <->
    exists ext,
      path r = start :: ext
      /\ ext <> []
      /\ last ext "" = "C"
      /\ Forall (is_edge g) (consecutive (path r))
      /\ latency r = sum (map (weight g) (consecutive (path r)))
      /\ latency r < 30.
Proof.
  intros Hwf Hpos Hfind.
  assert (Hgood : Forall (produced_from g start) rs).
  { refine (recurse_good unit predicate_below30 g start Hwf depth start [start] 0 []
              tt rs st' _ _ Hfind); [| constructor].
    split; [now exists [] |]. repeat split. constructor. }
  assert (Hincl : Forall (fun r => exists pre a b,
                              path r = pre ++ [a; b]
                              /\ status_below30 r a b = INCLUDE) rs).
  { refine (find_preserves unit predicate_below30
              (fun rs _ => Forall (fun r => exists pre a b,
                                       path r = pre ++ [a; b]
                                       /\ status_below30 r a b = INCLUDE) rs)
              _ g depth start tt rs st' Hfind _); [| constructor].
    intros rs0 st0 r pre a b status st1 Hinv Hpath Hcall.
    rewrite predicate_below30_pure in Hcall. injection Hcall as <- _.
    destruct (strict_eq _ STOP); [exact Hinv |].
    destruct (strict_eq _ INCLUDE) eqn:Hi; [| exact Hinv].
    apply Forall_app. split; [exact Hinv |].
    constructor; [| constructor]. exists pre, a, b.
    split; [exact Hpath | now apply strict_eq_INCLUDE]. }
  rewrite Forall_forall in Hgood, Hincl.
  intros r. split.
  - intros Hr.
    destruct (Hgood r Hr) as (Hhd & Hvalid & Hlat & _).
    destruct (Hincl r Hr) as (pre & a & b & Hpath & Hstatus).
    unfold status_below30, predicate_below30 in Hstatus. simpl in Hstatus.
    destruct (30 <=? latency r) eqn:Hlow; [discriminate |].
    destruct (String.eqb_spec b "C") as [-> | _]; [| discriminate].
    apply Z.leb_gt in Hlow.
    assert (Hp : exists ext, path r = start :: ext).
    { destruct (path r) as [| x ext]; [discriminate |].
      injection Hhd as ->. now exists ext. }
    destruct Hp as [ext Hp]. exists ext.
    split; [exact Hp |].
    split.
    { intros ->. rewrite Hp in Hpath. apply (f_equal (@List.length key)) in Hpath.
      rewrite length_app in Hpath. simpl in Hpath. lia. }
    split; [| repeat split; assumption].
    rewrite Hp in Hpath.
    destruct pre as [| y pre]; simpl in Hpath; injection Hpath as _ ->.
    + reflexivity.
    + apply last_snoc_pair.
  - intros (ext & Hpath & Hne & Hlast & Hvalid & Hlat & Hlow).
    destruct r as [p w]. simpl in *. subst p.
    fold (path_weight g (start :: ext)) in Hlat.
    assert (Hlow0 : 0 + path_weight g (start :: ext) < 30) by lia.
    pose proof (below30_admits g ext Hpos start [start] 0 Hne Hvalid Hlast Hlow0) as Hadm.
    rewrite Hlat.
    exact (recurse_complete unit predicate_below30 status_below30 g
             predicate_below30_pure depth start [start] 0 ext _ [] tt rs st' Hadm Hfind).
Qed.

Lemma find_below30_returns_exactly_the_cheap_paths_witness :
  wf_graph graph
  /\ nonneg_graph graph
  /\ (In (mkResult ["C"; "D"; "E"; "B"; "C"] 21)
         [mkResult ["C"; "D"; "C"] 16;
          mkResult ["C"; "D"; "C"; "E"; "B"; "C"] 25;
          mkResult ["C"; "D"; "E"; "B"; "C"] 21;
          mkResult ["C"; "E"; "B"; "C"] 9;
          mkResult ["C"; "E"; "B"; "C"; "D"; "C"] 25;
          mkResult ["C"; "E"; "B"; "C"; "E"; "B"; "C"] 18;
          mkResult ["C"; "E"; "B"; "C"; "E"; "B"; "C"; "E"; "B"; "C"] 27]
       <-> exists ext,
          ["C"; "D"; "E"; "B"; "C"] = "C" :: ext
          /\ ext <> []
          /\ last ext "" = "C"
          /\ Forall (is_edge graph) (consecutive ["C"; "D"; "E"; "B"; "C"])
          /\ 21 = sum (map (weight graph) (consecutive ["C"; "D"; "E"; "B"; "C"]))
          /\ 21 < 30).
Proof.
  assert (Hwf : wf_graph graph) by (apply wf_graphb_sound; reflexivity).
  assert (Hpos : nonneg_graph graph) by (apply nonneg_graphb_sound; reflexivity).
  split; [exact Hwf |]. split; [exact Hpos |].
  apply (find_below30_returns_exactly_the_cheap_paths graph "C" 12
           [mkResult ["C"; "D"; "C"] 16;
            mkResult ["C"; "D"; "C"; "E"; "B"; "C"] 25;
            mkResult ["C"; "D"; "E"; "B"; "C"] 21;
            mkResult ["C"; "E"; "B"; "C"] 9;
            mkResult ["C"; "E"; "B"; "C"; "D"; "C"] 25;
            mkResult ["C"; "E"; "B"; "C"; "E"; "B"; "C"] 18;
            mkResult ["C"; "E"; "B"; "C"; "E"; "B"; "C"; "E"; "B"; "C"] 27]
           tt Hwf Hpos).
  vm_compute. reflexivity.
Defined.

Lemma positive_graphb_sound (g : Graph) : positive_graphb g = true -> positive_graph g.
Proof.
  unfold positive_graphb, positive_graph, neighbors.
  intros H k e m Hin. rewrite forallb_forall in H.
  destruct (get g k) as [o |] eqn:Hk; [| contradiction].
  specialize (H (k, o) (get_In g k o Hk)). simpl in H.
  rewrite forallb_forall in H. specialize (H (e, m) Hin). simpl in H. lia.
Qed.

Lemma recurse_entries_below30_returns (rec : recurse_t unit)
      (cur : key) (p : list key) (w : Z) :
  (forall k q m rs st,
      w + 1 <= m < 30 -> exists out, rec k q m rs predicate_below30 st = Some out) ->
  forall entries rs st,
    (forall e m, In (e, m) entries -> 1 <= m) ->
    exists out, recurse_entries rec cur p w entries rs predicate_below30 st = Some out.
Proof.
  intros Hrec.
  induction entries as [| [e m] rest IH]; intros rs st Hpos; simpl; [eauto |].
  assert (Hm : 1 <= m) by (apply (Hpos e m); now left).
  assert (Hrest : forall e' m', In (e', m') rest -> 1 <= m')
    by (intros e' m' H; apply (Hpos e' m'); now right).
  unfold predicate_below30 at 1. simpl.
  destruct (30 <=? w + m) eqn:Hlow; simpl; [now apply IH |].
  apply Z.leb_gt in Hlow.
  destruct (String.eqb e "C"); simpl.
  - destruct (Hrec e (p ++ [e]) (w + m) (rs ++ [mkResult (p ++ [e]) (w + m)]) st)
      as [[rs2 st2] ->]; [lia |]. now apply IH.
  - destruct (Hrec e (p ++ [e]) (w + m) rs st) as [[rs2 st2] ->]; [lia |]. now apply IH.
Qed.

Lemma recurse_below30_returns (g : Graph) (depth : nat) :
  positive_graph g ->
  forall cur p w rs st,
    (1 <= depth)%nat ->
    30 <= w + Z.of_nat depth ->
    exists out, recurse depth g cur p w rs predicate_below30 st = Some out.
Proof.
  intros Hpos.
  induction depth as [| depth IH]; intros cur p w rs st Hd Hw; [lia |].
  simpl. apply recurse_entries_below30_returns.
  - intros k q m rs0 st0 Hm. apply IH; lia.
  - intros e m. apply Hpos.
Qed.

(** X13. On a graph whose latencies are all at least 1, [find] with the
    predicate of the below-30 test returns from every start node within a
    recursion depth of 30, cycles or not. *)
Theorem find_below30_returns_on_positive_graph
        (g : Graph) (start : key) (depth : nat) :
  positive_graph g ->
  (30 <= depth)%nat ->
  exists rs, find depth g start predicate_below30 tt = Some (rs, tt).
Proof.
  intros Hpos Hdepth.
  destruct (recurse_below30_returns g depth Hpos start [start] 0 [] tt)
    as [[rs []] H]; [lia | lia |].
  now exists rs.
Qed.

Lemma find_below30_returns_on_positive_graph_witness :
  positive_graph graph
  /\ exists rs, find 30 graph "C" predicate_below30 tt = Some (rs, tt).
Proof.
  assert (Hpos : positive_graph graph) by (apply positive_graphb_sound; reflexivity).
  split; [exact Hpos |].
  apply (find_below30_returns_on_positive_graph graph "C" 30 Hpos). lia.
Defined.

(** ** The running minimum of the shortest-trace test, on every graph *)

Lemma final_min_snoc (rs : list result) (r : result) :
  final_min (rs ++ [r]) = Finite (latency r).
Proof. unfold final_min. now rewrite rev_app_distr. Qed.

Lemma final_min_Infinity (rs : list result) : final_min rs = Infinity -> rs = [].
Proof.
  unfold final_min. destruct (rev rs) as [| r l] eqn:Hrev; [| discriminate].
  intros _. apply (f_equal (@rev result)) in Hrev. now rewrite rev_involutive in Hrev.
Qed.

Lemma StronglySorted_snoc {A : Type} (R : A -> A -> Prop) (l : list A) (x : A) :
  StronglySorted R l -> Forall (fun y => R y x) l -> StronglySorted R (l ++ [x]).
Proof.
  induction 1 as [| y l Hsorted IH Hall]; intros Hx; simpl.
  - repeat constructor.
  - inversion Hx as [| y' l' Hy Hl]; subst.
    constructor; [now apply IH |].
    apply Forall_app. split; [exact Hall | now constructor].
Qed.

Lemma shortest_results_invariant
      (g : Graph) (start : key) (depth : nat) (rs : list result) (min : bound) :
  find depth g start predicate_shortest Infinity = Some (rs, min) ->
  min = final_min rs
  /\ StronglySorted (fun earlier later => latency later < latency earlier) rs
  /\ Forall (fun r => last (path r) "" = "C") rs.
Proof.
  intros Hfind.
  pose (Inv := fun (rs : list result) (m : bound) =>
          m = final_min rs
          /\ StronglySorted (fun earlier later => latency later < latency earlier) rs
          /\ Forall (fun r => last (path r) "" = "C") rs
          /\ forall z, m = Finite z -> Forall (fun x => z <= latency x) rs).
  assert (H : Inv rs min).
  { refine (find_preserves bound predicate_shortest Inv _ g depth start Infinity rs min
              Hfind _).
    - intros rs0 m r pre a b status m1 (Hmin & Hsorted & Hends & Hlow) Hpath Hcall.
      unfold predicate_shortest in Hcall.
      destruct (geb_bound (latency r) m) eqn:Hge.
      { injection Hcall as <- <-. simpl. repeat split; assumption. }
      destruct (String.eqb_spec b "C") as [-> | _];
        injection Hcall as <- <-; simpl; [| repeat split; assumption].
      assert (Hbelow : Forall (fun x => latency r < latency x) rs0).
      { destruct m as [| z]; simpl in Hge.
        - symmetry in Hmin. apply final_min_Infinity in Hmin. subst rs0. constructor.
        - apply Z.leb_gt in Hge. specialize (Hlow z eq_refl).
          eapply Forall_impl; [| exact Hlow]. simpl. intros x Hx. lia. }
      split; [now rewrite final_min_snoc |].
      split; [now apply StronglySorted_snoc |].
      split.
      + apply Forall_app. split; [exact Hends |].
        constructor; [| constructor]. rewrite Hpath. apply last_snoc_pair.
      + intros z [= <-]. apply Forall_app. split.
        * eapply Forall_impl; [| exact Hbelow]. simpl. intros x Hx. lia.
        * constructor; [lia | constructor].
    - repeat split; constructor. }
  destruct H as (H1 & H2 & H3 & _). auto.
Qed.

(** X14. On every graph and from every start node, the results [find]
    returns with the predicate of the shortest-trace test all end at C and
    have strictly decreasing latencies, and [min] ends as the latency of the
    last of them, or as [Infinity] when there is none. *)
Theorem find_shortest_results_decrease
        (g : Graph) (start : key) (depth : nat) (rs : list result) (min : bound) :
  find depth g start predicate_shortest Infinity = Some (rs, min) ->
  min = final_min rs
  /\ StronglySorted (fun earlier later => latency later < latency earlier) rs
  /\ Forall (fun r => last (path r) "" = "C") rs.
Proof.
  exact (shortest_results_invariant g start depth rs min).
Qed.

Lemma find_shortest_results_decrease_witness :
  Finite 9 = final_min [mkResult ["A"; "B"; "C"] 9]
  /\ StronglySorted (fun earlier later => latency later < latency earlier)
                    [mkResult ["A"; "B"; "C"] 9]
  /\ Forall (fun r => last (path r) "" = "C") [mkResult ["A"; "B"; "C"] 9].
Proof.
  apply (find_shortest_results_decrease graph "A" 3). reflexivity.
Defined.

Section Shortest.

Variable g : Graph.
Hypothesis g_nonneg : nonneg_graph g.

Lemma at_most_larger (min : bound) (x y : Z) : at_most min x -> x <= y -> at_most min y.
Proof. intros (z & -> & Hz) Hxy. exists z. split; [reflexivity | lia]. Qed.

Lemma shortest_step_keeps_at_most (x : Z) :
  forall (rs : list result) (st : bound) (r : result) (pre : list key) (a b : key)
         (status : value) (st1 : bound),
    at_most st x ->
    path r = pre ++ [a; b] ->
    predicate_shortest st r a b = (status, st1) ->
    at_most st1 x.
Proof.
  intros rs st r pre a b status st1 (z & -> & Hz) _ Hcall.
  unfold predicate_shortest in Hcall. simpl in Hcall.
  destruct (z <=? latency r) eqn:Hge.
  - injection Hcall as _ <-. now exists z.
  - apply Z.leb_gt in Hge.
    destruct (String.eqb b "C"); injection Hcall as _ <-.
    + exists (latency r). split; [reflexivity | lia].
    + now exists z.
Qed.

Lemma shortest_recurse_keeps_at_most (x : Z) (depth : nat) cur pre w rs st rs' st' :
  recurse depth g cur (pre ++ [cur]) w rs predicate_shortest st = Some (rs', st') ->
  at_most st x -> at_most st' x.
Proof.
  apply (recurse_preserves bound predicate_shortest (fun _ st => at_most st x)).
  intros rs0 st0 r pre0 a b status st1 Hinv Hpath Hcall.
  pose proof (shortest_step_keeps_at_most x rs0 st0 r pre0 a b status st1 Hinv Hpath Hcall).
  destruct (strict_eq status STOP); [assumption |].
  destruct (strict_eq status INCLUDE); assumption.
Qed.

Lemma shortest_entries_keep_at_most (x : Z) (depth : nat) cur pre w entries rs st rs' st' :
  recurse_entries (recurse depth g) cur (pre ++ [cur]) w entries rs predicate_shortest st
  = Some (rs', st') ->
  at_most st x -> at_most st' x.
Proof.
  apply (recurse_entries_preserves bound predicate_shortest (fun _ st => at_most st x)).
  - intros rs0 st0 r pre0 a b status st1 Hinv Hpath Hcall.
    pose proof (shortest_step_keeps_at_most x rs0 st0 r pre0 a b status st1 Hinv Hpath
                                            Hcall).
    destruct (strict_eq status STOP); [assumption |].
    destruct (strict_eq status INCLUDE); assumption.
  - intros k pre' w' rs0 st0 rs1 st1. apply shortest_recurse_keeps_at_most.
Qed.

Lemma shortest_reaches (ext : list key) :
  forall b depth cur pre W rs st rs' st',
    Forall (is_edge g) (consecutive (cur :: b :: ext)) ->
    last (b :: ext) "" = "C" ->
    recurse depth g cur (pre ++ [cur]) W rs predicate_shortest st = Some (rs', st') ->
    at_most st' (W + path_weight g (cur :: b :: ext)).
Proof.
  induction ext as [| c ext IH]; intros b depth cur pre W rs st rs' st' Hvalid Hlast Hrun;
    (destruct depth as [| depth]; [discriminate |]); simpl in Hrun;
    change (consecutive (cur :: b :: ?l)) with ((cur, b) :: consecutive (b :: l)) in Hvalid;
    inversion Hvalid as [| e0 l0 Hedge Hrest]; subst;
    unfold is_edge in Hedge; simpl in Hedge;
    (destruct (edge_weight g cur b) as [w |] eqn:Hw; [| congruence]);
    rewrite (path_weight_cons g cur b w _ Hw);
    match goal with
    | |- context [path_weight g (b :: ?l)] =>
        pose proof (path_weight_nonneg g (b :: l) g_nonneg Hrest) as Hpos
    end;
    assert (Hin : In (b, w) (neighbors g cur)) by (now apply get_In);
    revert rs st Hrun;
    (induction (neighbors g cur) as [| [e m] rest IHe]; [contradiction |]);
    intros rs st Hrun; simpl in Hrun;
    (destruct Hin as [[= -> ->] | Hin];
     [| destruct (predicate_shortest st (mkResult ((pre ++ [cur]) ++ [e]) (W + m)) cur e)
          as [status st1];
        destruct (strict_eq status STOP); [exact (IHe Hin _ _ Hrun) |];
        match type of Hrun with
        | match ?call with _ => _ end = _ =>
            destruct call as [[rs2 st2] |]; [| discriminate]
        end;
        exact (IHe Hin _ _ Hrun)]);
    unfold predicate_shortest at 1 in Hrun; simpl in Hrun;
    (destruct (geb_bound (W + w) st) eqn:Hge; simpl in Hrun;
     [apply (shortest_entries_keep_at_most _ _ _ _ _ _ _ _ _ _ Hrun);
      destruct st as [| z]; [discriminate |]; simpl in Hge; apply Z.leb_le in Hge;
      exists z; split; [reflexivity | lia] |]).
  - (* the edge into C *)
    simpl in Hlast. subst b. simpl in Hrun.
    match type of Hrun with
    | match ?call with _ => _ end = _ =>
        destruct call as [[rs2 st2] |] eqn:Hcall; [| discriminate]
    end.
    apply (shortest_entries_keep_at_most _ _ _ _ _ _ _ _ _ _ Hrun).
    apply (shortest_recurse_keeps_at_most _ _ _ _ _ _ _ _ _ Hcall).
    exists (W + w). split; [reflexivity | lia].
  - (* an edge on the way *)
    destruct (String.eqb b "C"); simpl in Hrun;
      match type of Hrun with
      | match ?call with _ => _ end = _ =>
          destruct call as [[rs2 st2] |] eqn:Hcall; [| discriminate]
      end;
      apply (shortest_entries_keep_at_most _ _ _ _ _ _ _ _ _ _ Hrun).
    + apply (shortest_recurse_keeps_at_most _ _ _ _ _ _ _ _ _ Hcall).
      exists (W + w). split; [reflexivity | lia].
    + rewrite Z.add_assoc.
      exact (IH c depth b (pre ++ [cur]) (W + w) rs st rs2 st2 Hrest Hlast Hcall).
Qed.

End Shortest.



(** * Further properties of parse *)

Lemma has_set {A : Type} (o : obj A) (k k' : key) (v : A) :
  has (set o k v) k' = has o k' || String.eqb k k'.
Proof.
  unfold has at 1 2.
  destruct (String.eqb_spec k k') as [<- | Hne].
  - rewrite get_set_same. now rewrite orb_true_r.
  - rewrite get_set_other by congruence. now rewrite orb_false_r.
Qed.

Lemma has_keys {A : Type} (o : obj A) (k : key) :
  has o k = existsb (String.eqb k) (keys o).
Proof.
  unfold has, keys. induction o as [| [k' v'] o IH]; simpl; [reflexivity |].
  rewrite (String.eqb_sym k k').
  destruct (String.eqb k' k); [reflexivity | exact IH].
Qed.

Lemma keys_insert_nothing {A : Type} (o : obj A) (k : key) (v : A) :
  array_index k = None -> keys (set o k v) = add_first (keys o) k.
Proof.
  intros Hk. unfold set, add_first, add_property. rewrite <- has_keys, Hk.
  destruct (has o k); [apply keys_replace |].
  unfold keys. now rewrite map_app.
Qed.

Section ParseOrder.

Variable W : Type.
Variable to_number : string -> W.

Lemma neighbors_ensured (results : obj (obj W)) (start k : key) :
  neighbors (if has results start then results else set results start []) k
  = neighbors results k.
Proof.
  unfold neighbors.
  destruct (has results start) eqn:Hhas; [reflexivity |].
  destruct (String.eqb_spec k start) as [-> | Hne].
  - rewrite get_set_same. unfold has in Hhas.
    destruct (get results start); [discriminate | reflexivity].
  - now rewrite get_set_other.
Qed.

Lemma neighbors_parse_trace (results : obj (obj W)) (trace : string) (s : key) :
  neighbors (parse_trace to_number results trace) s
  = if String.eqb (char_key trace 0) s
    then set (neighbors results s) (char_key trace 1) (to_number (substr 2 trace))
    else neighbors results s.
Proof.
  unfold parse_trace.
  destruct (String.eqb_spec (char_key trace 0) s) as [<- | Hne].
  - unfold neighbors at 1. rewrite get_set_same. now rewrite neighbors_ensured.
  - unfold neighbors at 1. rewrite get_set_other by congruence.
    fold (neighbors (if has results (char_key trace 0) then results
                     else set results (char_key trace 0) []) s).
    apply neighbors_ensured.
Qed.

Lemma has_parse_trace (results : obj (obj W)) (trace : string) (s : key) :
  has (parse_trace to_number results trace) s
  = has results s || String.eqb (char_key trace 0) s.
Proof.
  unfold parse_trace. rewrite has_set.
  destruct (has results (char_key trace 0)) eqn:Hhas; [reflexivity |].
  rewrite has_set. now destruct (has results s), (String.eqb (char_key trace 0) s).
Qed.

Lemma has_parse_traces (data : list string) (s : key) :
  forall results,
    has (fold_left (parse_trace to_number) data results) s
    = has results s || existsb (fun trace => String.eqb (char_key trace 0) s) data.
Proof.
  induction data as [| t data IH]; intros results; simpl.
  - now rewrite orb_false_r.
  - rewrite IH, has_parse_trace. now rewrite orb_assoc.
Qed.

Lemma keys_parse_traces (data : list string) (s : key) :
  (forall trace, In trace data -> char_key trace 0 = s ->
                 array_index (char_key trace 1) = None) ->
  forall results,
    keys (neighbors (fold_left (parse_trace to_number) data results) s)
    = fold_left add_first (ends_from s data) (keys (neighbors results s)).
Proof.
  unfold ends_from.
  induction data as [| t data IH]; intros Hplain results; simpl; [reflexivity |].
  rewrite IH by (intros trace Hin; apply Hplain; now right).
  rewrite neighbors_parse_trace.
  destruct (String.eqb_spec (char_key t 0) s) as [Hs | Hne]; simpl; [| reflexivity].
  rewrite keys_insert_nothing; [reflexivity |].
  apply Hplain; [now left | exact Hs].
Qed.

Lemma edge_of_parse_traces (data : list string) (s e : key) (w : W) :
  get (neighbors (fold_left (parse_trace to_number) data []) s) e = Some w ->
  exists before trace later,
    data = before ++ trace :: later
    /\ char_key trace 0 = s
    /\ char_key trace 1 = e
    /\ (forall t, In t later -> s <> char_key t 0 \/ e <> char_key t 1)
    /\ w = to_number (substr 2 trace).
Proof.
  induction data as [| t data IH] using rev_ind.
  - discriminate.
  - rewrite fold_left_app. simpl.
    destruct (String.eqb_spec s (char_key t 0)) as [Hs | Hs].
    + destruct (String.eqb_spec e (char_key t 1)) as [He | He].
      * subst s e. rewrite parse_trace_here. intros [= <-].
        exists data, t, []. repeat split. intros t' [].
      * rewrite parse_trace_elsewhere by now right.
        intros Hget. destruct (IH Hget) as (before & trace & later & -> & H0 & H1 & Hl & Hw).
        exists before, trace, (later ++ [t]). rewrite <- app_assoc.
        repeat split; try assumption.
        intros t' Hin. apply in_app_or in Hin as [Hin | [<- | []]];
          [now apply Hl | now right].
    + rewrite parse_trace_elsewhere by now left.
      intros Hget. destruct (IH Hget) as (before & trace & later & -> & H0 & H1 & Hl & Hw).
      exists before, trace, (later ++ [t]). rewrite <- app_assoc.
      repeat split; try assumption.
      intros t' Hin. apply in_app_or in Hin as [Hin | [<- | []]];
        [now apply Hl | now left].
Qed.

End ParseOrder.

(** X16. [parse] invents no edge: an entry of the graph it returns comes from
    a record of the text, the last one with these two characters, and holds
    the conversion of the rest of that record. *)
Theorem parse_edges_come_from_traces
        (W : Type) (to_number : string -> W) (contents : string) (s e : key) (w : W) :
  get (neighbors (parse to_number contents) s) e = Some w ->
  exists before trace later,
    split "," contents = before ++ trace :: later
    /\ char_key trace 0 = s
    /\ char_key trace 1 = e
    /\ (forall t, In t later -> s <> char_key t 0 \/ e <> char_key t 1)
    /\ w = to_number (substr 2 trace).
Proof.
  exact (edge_of_parse_traces W to_number (split "," contents) s e w).
Qed.

Lemma parse_edges_come_from_traces_witness :
  get (neighbors (parse to_number "AB5,AB7,BC1") "A") "B" = Some (Num 7)
  /\ exists before trace later,
      split "," "AB5,AB7,BC1" = before ++ trace :: later
      /\ char_key trace 0 = "A"
      /\ char_key trace 1 = "B"
      /\ (forall t, In t later -> "A" <> char_key t 0 \/ "B" <> char_key t 1)
      /\ Num 7 = to_number (substr 2 trace).
Proof.
  split; [reflexivity |].
  apply (parse_edges_come_from_traces number to_number "AB5,AB7,BC1" "A" "B" (Num 7)).
  reflexivity.
Defined.

Lemma split_nonempty (sep : ascii) (s : string) : split sep s <> [].
Proof.
  destruct s as [| c s]; simpl; [discriminate |].
  destruct (Ascii.eqb c sep); [discriminate |].
  destruct (split sep s); discriminate.
Qed.

(** X17. The nodes of the graph [parse] returns are the first characters of
    the records, so a node that only ends edges is no key of the graph; and
    the graph is never empty, a text always having a record. *)
Theorem parse_nodes_are_trace_starts
        (W : Type) (to_number : string -> W) (contents : string) :
  (forall s,
      get (parse to_number contents) s <> None
      <-> exists trace, In trace (split "," contents) /\ char_key trace 0 = s)
  /\ parse to_number contents <> [].
Proof.
  assert (Hnodes : forall s,
             get (parse to_number contents) s <> None
             <-> exists trace, In trace (split "," contents) /\ char_key trace 0 = s).
  { intros s. unfold parse, parse_traces.
    pose proof (has_parse_traces W to_number (split "," contents) s []) as Hhas.
    simpl in Hhas. unfold has at 1 in Hhas.
    split.
    - intros Hget.
      destruct (get _ s); [| contradiction]. symmetry in Hhas.
      apply existsb_exists in Hhas as (trace & Hin & Heq).
      exists trace. split; [exact Hin | now apply String.eqb_eq].
    - intros (trace & Hin & Heq).
      assert (Hex : existsb (fun t => String.eqb (char_key t 0) s) (split "," contents)
                    = true).
      { apply existsb_exists. exists trace. split; [exact Hin | now apply String.eqb_eq]. }
      rewrite Hex in Hhas. destruct (get _ s); [discriminate | discriminate]. }
  split; [exact Hnodes |].
  destruct (split "," contents) as [| t data] eqn:Hsplit;
    [now apply split_nonempty in Hsplit |].
  intros Hempty.
  assert (Hget : get (parse to_number contents) (char_key t 0) <> None).
  { apply Hnodes. exists t. split; [now left | reflexivity]. }
  rewrite Hempty in Hget. now apply Hget.
Qed.

Lemma parse_nodes_are_trace_starts_witness :
  (exists trace, In trace (split "," "AB5,BC4") /\ char_key trace 0 = "B")
  /\ get (parse to_number "AB5,BC4") "B" <> None.
Proof.
  assert (H : exists trace, In trace (split "," "AB5,BC4") /\ char_key trace 0 = "B").
  { exists "BC4". split; [right; now left | reflexivity]. }
  split; [exact H |].
  exact (proj2 (proj1 (parse_nodes_are_trace_starts number to_number "AB5,BC4") "B") H).
Defined.

(** X18. When the second characters of the records that start with [s] are
    no array indices, the entries of [s] in the graph [parse] returns are in
    the order in which these characters first occur in the text; this is the
    order in which [find] follows the edges of [s]. *)
Theorem parse_keeps_first_occurrence_order
        (W : Type) (to_number : string -> W) (contents : string) (s : key) :
  (forall trace, In trace (split "," contents) -> char_key trace 0 = s ->
                 array_index (char_key trace 1) = None) ->
  keys (neighbors (parse to_number contents) s)
  = first_occurrences (ends_from s (split "," contents)).
Proof.
  intros Hplain. unfold parse, parse_traces, first_occurrences.
  exact (keys_parse_traces W to_number (split "," contents) s Hplain []).
Qed.

Lemma parse_keeps_first_occurrence_order_witness :
  keys (neighbors (parse to_number "AD5,AB1,CE2,AD7,AE3") "A") = ["D"; "B"; "E"].
Proof.
  apply (parse_keeps_first_occurrence_order number to_number "AD5,AB1,CE2,AD7,AE3" "A").
  intros trace Hin Hs. simpl in Hin.
  repeat (destruct Hin as [<- | Hin]; [reflexivity || discriminate |]).
  contradiction.
Defined.

(** ** From the text to the traces *)

Lemma integer_weights_keys (o' : obj number) :
  forall o, integer_weights o' = Some o -> keys o = keys o'.
Proof.
  unfold keys.
  induction o' as [| [k n] o' IH]; simpl; intros o.
  - now intros [= <-].
  - destruct n as [z | text]; [| discriminate].
    destruct (integer_weights o') as [l |]; [| discriminate].
    intros [= <-]. simpl. now rewrite (IH l eq_refl).
Qed.

Lemma integer_graph_wf (g' : obj (obj number)) :
  forall g, integer_graph g' = Some g -> wf_graph g' -> wf_graph g.
Proof.
  induction g' as [| [k o'] g' IH]; simpl; intros g.
  - intros [= <-] _ k o [].
  - destruct (integer_weights o') as [o |] eqn:Ho; [| discriminate].
    destruct (integer_graph g') as [l |]; [| discriminate].
    intros [= <-] Hwf k0 o0 [[= <- <-] | Hin].
    + unfold wf_obj. rewrite (integer_weights_keys o' o Ho).
      apply (Hwf k o'). now left.
    + apply (IH l eq_refl) with (k := k0); [| exact Hin].
      intros k1 o1 H1. apply (Hwf k1 o1). now right.
Qed.



(** ** Pruning is inherited *)

Section Inherited.

Variable St : Type.
Variable predicate : predicate_t St.
Variable f : result -> key -> key -> value.
Variable g : Graph.
Hypothesis predicate_pure : forall st r a b, predicate st r a b = (f r a b, st).
Hypothesis g_wf : wf_graph g.

Lemma recurse_entries_admitted (depth : nat) (cur : key) (P : list key) (W : Z) :
  (forall k P' W' rs st rs' st',
      recurse depth g k P' W' rs predicate st = Some (rs', st') ->
      forall r, In r rs' ->
                In r rs \/ exists ext, path r = P' ++ ext
                                       /\ admits f g k P' W' ext (latency r)) ->
  forall entries rs st rs' st',
    (forall e, In e entries -> In e (neighbors g cur)) ->
    recurse_entries (recurse depth g) cur P W entries rs predicate st = Some (rs', st') ->
    forall r, In r rs' ->
              In r rs \/ exists ext, path r = P ++ ext
                                     /\ admits f g cur P W ext (latency r).
Proof.
  intros Hrec.
  induction entries as [| [e m] rest IH]; intros rs st rs' st' Hsub; simpl.
  - intros [= <- _] r Hr. now left.
  - assert (Hedge : edge_weight g cur e = Some m).
    { apply In_get; [now apply wf_neighbors | apply Hsub; now left]. }
    assert (Hsub' : forall x, In x rest -> In x (neighbors g cur))
      by (intros x Hx; apply Hsub; now right).
    rewrite predicate_pure.
    destruct (strict_eq (f (mkResult (P ++ [e]) (W + m)) cur e) STOP) eqn:Hstop.
    + exact (IH rs st rs' st' Hsub').
    + destruct (recurse depth g e (P ++ [e]) (W + m) _ predicate st)
        as [[rs2 st2] |] eqn:Hcall; [| discriminate].
      intros Hrun r Hr.
      destruct (IH rs2 st2 rs' st' Hsub' Hrun r Hr) as [Hr2 | Hr2]; [| now right].
      destruct (Hrec _ _ _ _ _ _ _ Hcall r Hr2) as [Hr1 | (ext & Hpath & Hadm)].
      * destruct (strict_eq (f (mkResult (P ++ [e]) (W + m)) cur e) INCLUDE) eqn:Hinc;
          [| now left].
        apply in_app_or in Hr1 as [Hr1 | [<- | []]]; [now left |].
        right. exists [e]. split; [reflexivity |]. simpl.
        apply admits_include; [exact Hedge | now apply strict_eq_INCLUDE].
      * right. exists (e :: ext). split; [now rewrite Hpath, <- app_assoc |].
        now apply admits_through with (w := m).
Qed.

Lemma recurse_admitted (depth : nat) :
  forall k P W rs st rs' st',
    recurse depth g k P W rs predicate st = Some (rs', st') ->
    forall r, In r rs' ->
              In r rs \/ exists ext, path r = P ++ ext
                                     /\ admits f g k P W ext (latency r).
Proof.
  induction depth as [| depth IH]; intros k P W rs st rs' st'; simpl; [discriminate |].
  apply (recurse_entries_admitted depth k P W IH). auto.
Qed.

End Inherited.

(** X20. With a predicate whose answer depends on its arguments only, every
    path [find] returns was reached without a [STOP]: each candidate on the
    way to it follows an edge and was not answered [STOP], and the last one
    was answered [INCLUDE] with the latency of the result. *)
Theorem find_returns_only_admitted_paths
        (St : Type) (predicate : predicate_t St) (f : result -> key -> key -> value)
        (g : Graph) (start : key) (depth : nat) (st : St) (rs : list result) (st' : St)
        (r : result) :
  (forall st0 r0 a b, predicate st0 r0 a b = (f r0 a b, st0)) ->
  wf_graph g ->
  find depth g start predicate st = Some (rs, st') ->
  In r rs ->
  exists ext, path r = start :: ext /\ admits f g start [start] 0 ext (latency r).
Proof.
  intros Hpure Hwf Hfind Hr.
  destruct (recurse_admitted St predicate f g Hpure Hwf depth start [start] 0 [] st rs st'
              Hfind r Hr) as [[] | H].
  exact H.
Qed.

Lemma find_returns_only_admitted_paths_witness :
  wf_graph graph
  /\ exists ext,
      ["C"; "E"; "B"; "C"] = "C" :: ext
      /\ admits status_max3 graph "C" ["C"] 0 ext 9.
Proof.
  assert (Hwf : wf_graph graph) by (apply wf_graphb_sound; reflexivity).
  split; [exact Hwf |].
  apply (find_returns_only_admitted_paths unit predicate_max3 status_max3 graph "C" 4 tt
           [mkResult ["C"; "D"; "C"] 16; mkResult ["C"; "E"; "B"; "C"] 9] tt
           (mkResult ["C"; "E"; "B"; "C"] 9)).
  - intros [] r a b. unfold status_max3, predicate_max3.
    destruct (4 <? _); [reflexivity |]. destruct (String.eqb b "C"); reflexivity.
  - exact Hwf.
  - vm_compute. reflexivity.
  - right. now left.
Defined.

(** ** The shortest-trace test from B to B, on every graph *)

Lemma index_is_at (pre : list key) (x : key) (rest : list key) (i : Z) :
  i = Z.of_nat (List.length pre) ->
  index_is (pre ++ x :: rest) i x = true.
Proof.
  intros ->. unfold index_is.
  replace (Z.of_nat (List.length pre) <? 0) with false by (symmetry; apply Z.ltb_ge; lia).
  rewrite Nat2Z.id, nth_error_app2 by lia. rewrite Nat.sub_diag. simpl.
  apply String.eqb_refl.
Qed.

(** X21. On every graph and from every start node, the results [find]
    returns with the predicate of the shortest-trace test from B to B all end
    at B and have strictly decreasing latencies, [min] ends as the latency of
    the last of them or as [Infinity], and no result ends by taking again the
    edge it took two steps before (... x, y, x, y). *)
Theorem find_shortest_B_results
        (g : Graph) (start : key) (depth : nat) (rs : list result) (min : bound) :
  find depth g start predicate_shortest_B Infinity = Some (rs, min) ->
  min = final_min rs
  /\ StronglySorted (fun earlier later => latency later < latency earlier) rs
  /\ Forall (fun r => last (path r) "" = "B"
                      /\ forall pre x y, path r <> pre ++ [x; y; x; y]) rs.
Proof.
  intros Hfind.
  pose (Inv := fun (rs : list result) (m : bound) =>
          m = final_min rs
          /\ StronglySorted (fun earlier later => latency later < latency earlier) rs
          /\ Forall (fun r => last (path r) "" = "B"
                              /\ forall pre x y, path r <> pre ++ [x; y; x; y]) rs
          /\ forall z, m = Finite z -> Forall (fun x => z <= latency x) rs).
  assert (H : Inv rs min).
  { refine (find_preserves bound predicate_shortest_B Inv _ g depth start Infinity rs min
              Hfind _).
    - intros rs0 m r pre a b status m1 (Hmin & Hsorted & Hends & Hlow) Hpath Hcall.
      unfold predicate_shortest_B in Hcall.
      destruct (index_is (path r) (Z.of_nat (List.length (path r)) - 4) a
                && index_is (path r) (Z.of_nat (List.length (path r)) - 3) b) eqn:Hguard.
      { injection Hcall as <- <-. simpl. repeat split; assumption. }
      destruct (geb_bound (latency r) m) eqn:Hge.
      { injection Hcall as <- <-. simpl. repeat split; assumption. }
      destruct (String.eqb_spec b "B") as [-> | _];
        injection Hcall as <- <-; simpl; [| repeat split; assumption].
      assert (Hbelow : Forall (fun x => latency r < latency x) rs0).
      { destruct m as [| z]; simpl in Hge.
        - symmetry in Hmin. apply final_min_Infinity in Hmin. subst rs0. constructor.
        - apply Z.leb_gt in Hge. specialize (Hlow z eq_refl).
          eapply Forall_impl; [| exact Hlow]. simpl. intros x Hx. lia. }
      split; [now rewrite final_min_snoc |].
      split; [now apply StronglySorted_snoc |].
      split.
      + apply Forall_app. split; [exact Hends |].
        constructor; [| constructor]. split.
        * rewrite Hpath. apply last_snoc_pair.
        * intros pre' x y Hrep.
          assert (Hxy : [x; y] = [a; "B"]).
          { rewrite Hrep in Hpath. apply (f_equal (@rev key)) in Hpath.
            rewrite !rev_app_distr in Hpath. simpl in Hpath.
            now injection Hpath as -> ->. }
          injection Hxy as -> ->.
          rewrite Hrep in Hguard. rewrite length_app in Hguard. simpl in Hguard.
          rewrite (index_is_at pre' a ["B"; a; "B"]) in Hguard by lia.
          change (pre' ++ [a; "B"; a; "B"]) with (pre' ++ [a] ++ "B" :: [a; "B"]) in Hguard.
          rewrite app_assoc in Hguard.
          rewrite (index_is_at (pre' ++ [a]) "B" [a; "B"]) in Hguard
            by (rewrite length_app; simpl; lia).
          discriminate.
      + intros z [= <-]. apply Forall_app. split.
        * eapply Forall_impl; [| exact Hbelow]. simpl. intros x Hx. lia.
        * constructor; [lia | constructor].
    - repeat split; constructor. }
  destruct H as (H1 & H2 & H3 & _). auto.
Qed.

Lemma find_shortest_B_results_witness :
  Finite 9 = final_min [mkResult ["B"; "C"; "D"; "C"; "E"; "B"] 25;
                        mkResult ["B"; "C"; "D"; "E"; "B"] 21;
                        mkResult ["B"; "C"; "E"; "B"] 9]
  /\ StronglySorted (fun earlier later => latency later < latency earlier)
                    [mkResult ["B"; "C"; "D"; "C"; "E"; "B"] 25;
                     mkResult ["B"; "C"; "D"; "E"; "B"] 21;
                     mkResult ["B"; "C"; "E"; "B"] 9]
  /\ Forall (fun r => last (path r) "" = "B"
                      /\ forall pre x y, path r <> pre ++ [x; y; x; y])
            [mkResult ["B"; "C"; "D"; "C"; "E"; "B"] 25;
             mkResult ["B"; "C"; "D"; "E"; "B"] 21;
             mkResult ["B"; "C"; "E"; "B"] 9].
Proof.
  apply (find_shortest_B_results graph "B" 8). vm_compute. reflexivity.
Defined.
